(** * python-pptx: chart categories and SmartArt diagram text

    A shallow embedding of

      - [pptx/chart/category.py]   (hierarchical chart categories),
      - [pptx/oxml/diagram.py]     (custom element classes of a diagram),
      - [pptx/parts/diagram.py]    (diagram parts),
      - [pptx/shapes/smartart.py]  (the SmartArt proxy objects),

    followed by the properties established about them.  Python objects
    that are mutated in place are modelled by explicit state passing:
    an XML element is a tree, a reference to a sub-element is a path
    from the root of its tree, and the parts of a package live in a
    store addressed by position. *)

From Stdlib Require Import Ascii String.
From stdpp Require Import pretty functions sorting.
From stdpp Require Import base list strings.

Set Default Proof Using "Type".

(* ================================================================== *)
(** * Part I: the program                                              *)
(* ================================================================== *)

(** ** Python results

    A call either returns a value or raises.  Only the exception
    classes the modelled code can meet are listed. *)

Inductive exn : Type :=
| ValueError (msg : string)
| IndexError
| TypeError
| InvalidXmlError.

Inductive result (A : Type) : Type :=
| Ok (a : A)
| Raise (e : exn).
Arguments Ok {A} a.
Arguments Raise {A} e.

#[global] Instance result_ret : MRet result := λ A a, Ok a.
#[global] Instance result_bind : MBind result := λ A B f m,
  match m with
  | Ok a => f a
  | Raise e => Raise e
  end.

#[global] Instance result_fmap : FMap result := λ A B f m,
  match m with
  | Ok a => Ok (f a)
  | Raise e => Raise e
  end.

(** [seq[i]] for a non-negative [i]: [IndexError] out of range. *)
Definition getitem {A} (l : list A) (i : nat) : result A :=
  match l !! i with
  | Some x => Ok x
  | None => Raise IndexError
  end.

(** [enumerate(l)], counting from [k]. *)
Fixpoint enumerate_from {A} (k : nat) (l : list A) : list (nat * A) :=
  match l with
  | [] => []
  | x :: l' => (k, x) :: enumerate_from (S k) l'
  end.
Definition enumerate {A} (l : list A) : list (nat * A) := enumerate_from 0 l.

(** The longest prefix of [l] whose members all satisfy [f]. *)
Fixpoint take_while {A} (f : A → bool) (l : list A) : list A :=
  match l with
  | [] => []
  | x :: l' => if f x then x :: take_while f l' else []
  end.

(* ------------------------------------------------------------------ *)
(** ** pptx/chart/category.py                                          *)
(* ------------------------------------------------------------------ *)

Module category.

(** *** The chart elements the module reads

    The element classes of the chart live in [pptx.oxml.chart], which
    this module only uses through a handful of properties.  Each
    element is represented by the values those properties return. *)

(** A [c:pt] element: its [idx] attribute and [pt.v.text], the text of
    its required [c:v] child, which is [None] for an empty [<c:v/>]. *)
Record c_pt : Type := { pt_idx : nat; pt_v_text : option string }.

(** A [c:lvl] element and its [pt_lst]. *)
Record CT_Lvl : Type := { pt_lst : list c_pt }.

(** A [c:multiLvlStrRef] element with the [c:lvl] elements of its
    cache, in document order. *)
Record CT_MultiLvlStrRef : Type := { lvl_lst : list CT_Lvl }.

(** The [c:cat] element.  [str_cache] is the cached list of label
    strings stored with the leaf level. *)
Record CT_AxDataSource : Type := {
  multiLvlStrRef : option CT_MultiLvlStrRef;
  str_cache : list string
}.

(** Modelled from the spec: [cat.lvls], the ordered sequence of level
    elements contained in the multi-level reference; there is none
    under a flat reference. *)
Definition lvls (cat : CT_AxDataSource) : list CT_Lvl :=
  match multiLvlStrRef cat with
  | Some ref => lvl_lst ref
  | None => []
  end.

(** Modelled from the spec: [cat.update_str_cache(labels)], which makes
    the cached string representation kept with the leaf level carry the
    new labels. *)
Definition update_str_cache (labels : list string) (cat : CT_AxDataSource)
  : CT_AxDataSource :=
  {| multiLvlStrRef := multiLvlStrRef cat; str_cache := labels |}.

(** The plot element ([xChart]): [cat] is the [c:cat] of its first
    series if any, [cat_pts] has one entry per category position
    ([None] where no [c:pt] is stored for it), and [cat_pt_count] is the
    value of [c:ptCount/@val]. *)
Record xChart : Type := {
  cat : option CT_AxDataSource;
  cat_pts : list (option c_pt);
  cat_pt_count : nat
}.

(** The embedded workbook of a chart part; [xlsx_categories] is [None]
    when the chart has no embedded workbook. *)
Record ChartWorkbook : Type := { xlsx_categories : option (list string) }.

(** Modelled from the spec: [chart_workbook.update_categories(labels)]
    of the embedded-workbook service, which stores the ordered labels
    and fails with a not-available error when the chart has no workbook
    (the wording of that message is not fixed by the spec). *)
Definition update_categories (labels : list string) (wb : ChartWorkbook)
  : result ChartWorkbook :=
  match xlsx_categories wb with
  | None => Raise (ValueError "Cannot update categories: no embedded Excel workbook")
  | Some _ => Ok {| xlsx_categories := Some labels |}
  end.

Record ChartPart : Type := { chart_workbook : ChartWorkbook }.

(** *** class Category(str) *)

Record Category : Type := {
  _pt : option c_pt;
  _idx : option nat
}.

(** [Category(pt, idx)] and [Category(pt)]. *)
Definition Category_new (pt : option c_pt) (idx : option nat) : Category :=
  {| _pt := pt; _idx := idx |}.

(** [Category(pt)] for a [c:pt] element that is present. *)
Definition Category_pt (pt : c_pt) : Category := Category_new (Some pt) None.

(** [str.__new__(cls, x)] for [x] a string or [None]: the string
    itself, and the four letters [None] for [None]. *)
Definition py_str (x : option string) : string :=
  match x with
  | Some s => s
  | None => "None"
  end.

(** The string value given by [__new__]: the label. *)
Definition label (self : Category) : string :=
  let category_label :=
    match _pt self with
    | None => Some ""
    | Some pt => pt_v_text pt
    end in
  py_str category_label.

Definition idx (self : Category) : option nat :=
  match _pt self with
  | None => _idx self
  | Some pt => Some (pt_idx pt)
  end.

(** *** class CategoryLevel(Sequence) *)

Record CategoryLevel : Type := { _lvl : CT_Lvl }.

Definition CategoryLevel_len (self : CategoryLevel) : nat :=
  length (pt_lst (_lvl self)).

Definition CategoryLevel_getitem (self : CategoryLevel) (offset : nat)
  : result Category :=
  pt ← getitem (pt_lst (_lvl self)) offset;
  Ok (Category_pt pt).

(** Iterating a [Sequence] calls [__getitem__] with 0, 1, ... until it
    raises [IndexError]. *)
Definition CategoryLevel_iter (self : CategoryLevel) : list Category :=
  Category_pt <$> pt_lst (_lvl self).

(** *** class Categories(Sequence) *)

Record Categories : Type := {
  _xChart : xChart;
  _chart_part : option ChartPart
}.

Definition Categories_iter (self : Categories) : list Category :=
  (λ '(idx, pt), Category_new pt (Some idx)) <$> enumerate (cat_pts (_xChart self)).

Definition Categories_len (self : Categories) : nat :=
  cat_pt_count (_xChart self).

Definition depth (self : Categories) : nat :=
  match cat (_xChart self) with
  | None => 0
  | Some cat =>
      match multiLvlStrRef cat with
      | None => 1
      | Some _ => length (lvls cat)
      end
  end.

Definition levels (self : Categories) : list CategoryLevel :=
  match cat (_xChart self) with
  | None => []
  | Some cat => Build_CategoryLevel <$> lvls cat
  end.

(** [a > b] on two [idx] values; comparing [None] with an integer
    raises [TypeError]. *)
Definition idx_gt (a b : option nat) : result bool :=
  match a, b with
  | Some x, Some y => Ok (bool_decide (y < x))
  | _, _ => Raise TypeError
  end.

(** The [for category in parent_level] loop of [_parentage]: [parent]
    is the loop-carried variable and the result is its value when the
    loop ends, by [break] or by exhaustion. *)
Fixpoint scan_parent (leaf_node parent : Category) (parent_level : list Category)
  : result Category :=
  match parent_level with
  | [] => Ok parent
  | category :: rest =>
      exceeds ← idx_gt (idx category) (idx leaf_node);
      if (exceeds : bool) then Ok parent
      else scan_parent leaf_node category rest
  end.

Fixpoint _parentage (categories : list Category) (levels : list CategoryLevel)
  : result (list Category) :=
  match levels with
  | [] => Ok categories
  | parent_level :: remaining_levels =>
      if decide (CategoryLevel_len parent_level = 0) then Ok categories
      else
        leaf_node ← getitem categories 0;
        parent0 ← CategoryLevel_getitem parent_level 0;
        parent ← scan_parent leaf_node parent0 (CategoryLevel_iter parent_level);
        _parentage (categories ++ [parent]) remaining_levels
  end.

(** The generator is consumed whole by its only caller, so it is
    modelled by the list of what it yields; an exception raised while
    producing an item surfaces in the caller. *)
Definition _iter_flattened_categories (self : Categories)
  : result (list (list Category)) :=
  match levels self with
  | [] => Ok []
  | leaf_level :: remaining_levels =>
      mapM (λ category, _parentage [category] remaining_levels)
           (CategoryLevel_iter leaf_level)
  end.

Definition flattened_labels (self : Categories) : result (list (list string)) :=
  match cat (_xChart self) with
  | None => Ok []
  | Some cat =>
      match multiLvlStrRef cat with
      | None => Ok ((λ category, [label category]) <$> Categories_iter self)
      | Some _ =>
          flat_cats ← _iter_flattened_categories self;
          Ok ((λ flat_cat : list Category, label <$> reverse flat_cat)
                <$> (flat_cats : list (list Category)))
      end
  end.

(** The two messages [update_all] raises itself. *)
Definition length_mismatch_msg (new_length current_length : nat) : string :=
  "New categories length (" +:+ pretty new_length
    +:+ ") must match current length (" +:+ pretty current_length +:+ ")".

Definition chart_part_unavailable_msg : string :=
  "Cannot update categories: chart_part not available".

(** [update_all] mutates the workbook of the chart part and the [c:cat]
    element.  The model returns the outcome of the call together with
    the object as it is when the call ends, also when it raises. *)
Definition update_all (self : Categories) (new_categories : list string)
  : result unit * Categories :=
  let current_length := Categories_len self in
  if decide (length new_categories ≠ current_length) then
    (Raise (ValueError (length_mismatch_msg (length new_categories) current_length)),
     self)
  else
    match _chart_part self with
    | None => (Raise (ValueError chart_part_unavailable_msg), self)
    | Some chart_part =>
        match update_categories new_categories (chart_workbook chart_part) with
        | Raise e => (Raise e, self)
        | Ok workbook' =>
            let chart_part' := {| chart_workbook := workbook' |} in
            let xChart' :=
              match cat (_xChart self) with
              | Some cat0 =>
                  {| cat := Some (update_str_cache new_categories cat0);
                     cat_pts := cat_pts (_xChart self);
                     cat_pt_count := cat_pt_count (_xChart self) |}
              | None => _xChart self
              end in
            (Ok (), {| _xChart := xChart'; _chart_part := Some chart_part' |})
        end
    end.

(** [update_all] again, with its two callees as parameters.  Neither
    [update_categories] nor [update_str_cache] is defined in this
    module, and either may raise; here each is any function that gives
    the outcome of its call together with the object as the call leaves
    it, whatever it managed to write before raising. *)
Definition update_all_with
    (update_categories : list string → ChartWorkbook → result unit * ChartWorkbook)
    (update_str_cache : list string → CT_AxDataSource → result unit * CT_AxDataSource)
    (self : Categories) (new_categories : list string)
  : result unit * Categories :=
  let current_length := Categories_len self in
  if decide (length new_categories ≠ current_length) then
    (Raise (ValueError (length_mismatch_msg (length new_categories) current_length)),
     self)
  else
    match _chart_part self with
    | None => (Raise (ValueError chart_part_unavailable_msg), self)
    | Some chart_part =>
        let '(outcome, workbook') :=
          update_categories new_categories (chart_workbook chart_part) in
        let chart_part' := {| chart_workbook := workbook' |} in
        match outcome with
        | Raise e => (Raise e, {| _xChart := _xChart self; _chart_part := Some chart_part' |})
        | Ok _ =>
            match cat (_xChart self) with
            | None => (Ok (), {| _xChart := _xChart self; _chart_part := Some chart_part' |})
            | Some cat0 =>
                let '(outcome', cat') := update_str_cache new_categories cat0 in
                (outcome',
                 {| _xChart := {| cat := Some cat';
                                  cat_pts := cat_pts (_xChart self);
                                  cat_pt_count := cat_pt_count (_xChart self) |};
                    _chart_part := Some chart_part' |})
            end
        end
    end.

(** The two modelled callees in the form [update_all_with] takes: a
    call that raises leaves its object as it was. *)
Definition update_categories_call (labels : list string) (wb : ChartWorkbook)
  : result unit * ChartWorkbook :=
  match update_categories labels wb with
  | Ok wb' => (Ok (), wb')
  | Raise e => (Raise e, wb)
  end.

Definition update_str_cache_call (labels : list string) (cat : CT_AxDataSource)
  : result unit * CT_AxDataSource :=
  (Ok (), update_str_cache labels cat).

End category.

(* ------------------------------------------------------------------ *)
(** ** XML element trees                                               *)
(* ------------------------------------------------------------------ *)

(** The part of lxml's element API the diagram modules call.  An element
    has a tag (in Clark notation), attributes, the text before its first
    child, and child elements in document order.  An element reference
    held by a Python object is a path: the positions of the children to
    descend through from the root of the tree.  Assigning [el.text]
    leaves the shape of the tree alone, so paths stay valid. *)

Module etree.

#[local] Unset Elimination Schemes.
Inductive element : Type := Element {
  tag : string;
  attrib : list (string * string);
  text : option string;
  children : list element
}.
#[local] Set Elimination Schemes.

Definition path : Type := list nat.

(** The element a path leads to. *)
Fixpoint get_at (p : path) (e : element) : option element :=
  match p with
  | [] => Some e
  | i :: p' =>
      match children e !! i with
      | Some c => get_at p' c
      | None => None
      end
  end.

(** The tree after the element at [p] has been replaced by its image
    under [f]. *)
Fixpoint alter_at (f : element → element) (p : path) (e : element) : element :=
  match p with
  | [] => f e
  | i :: p' =>
      Element (tag e) (attrib e) (text e) (alter (alter_at f p') i (children e))
  end.

(** [el.text = v] *)
Definition set_text (v : option string) (e : element) : element :=
  Element (tag e) (attrib e) v (children e).

(** [el.text = v] for the element at [p] of the tree [e]. *)
Definition set_text_at (p : path) (v : option string) (e : element) : element :=
  alter_at (set_text v) p e.

(** [el.text] of the element at [p]. *)
Definition text_at (p : path) (e : element) : option string :=
  c ← get_at p e; text c.

(** [e.get(name)] *)
Fixpoint assoc (name : string) (kvs : list (string * string)) : option string :=
  match kvs with
  | [] => None
  | (k, v) :: kvs' => if decide (k = name) then Some v else assoc name kvs'
  end.
Definition get (name : string) (e : element) : option string :=
  assoc name (attrib e).

(** The positions, counted from [i], of the members of [cs] tagged
    [tg]. *)
Fixpoint tagged_from (tg : string) (i : nat) (cs : list element) : list nat :=
  match cs with
  | [] => []
  | c :: cs' =>
      (if decide (tag c = tg) then [i] else []) ++ tagged_from tg (S i) cs'
  end.

(** [e.findall(tg)]: the children tagged [tg], in document order. *)
Definition findall (tg : string) (e : element) : list nat :=
  tagged_from tg 0 (children e).

(** [e.find(tg)]: the first child tagged [tg]. *)
Definition find (tg : string) (e : element) : option nat :=
  head (findall tg e).

(** [e.findall(".//" + tg)]: the descendants of [e] tagged [tg], in
    document order ([e] itself is not among them). *)
Fixpoint findall_desc (tg : string) (e : element) : list path :=
  match e with
  | Element _ _ _ cs =>
      (fix go (i : nat) (cs : list element) {struct cs} : list path :=
         match cs with
         | [] => []
         | c :: cs' =>
             (if decide (tag c = tg) then [[i]] else [])
               ++ (cons i <$> findall_desc tg c)
               ++ go (S i) cs'
         end) 0 cs
  end.

(** The loop over the children inside [findall_desc], on its own. *)
Fixpoint findall_desc_from (tg : string) (i : nat) (cs : list element) : list path :=
  match cs with
  | [] => []
  | c :: cs' =>
      (if decide (tag c = tg) then [[i]] else [])
        ++ (cons i <$> findall_desc tg c)
        ++ findall_desc_from tg (S i) cs'
  end.

(** A run of assignments [el.text = v], one per pair, in order. *)
Definition assign (pvs : list (path * option string)) (e : element) : element :=
  foldl (λ e' '(p, v), set_text_at p v e') e pvs.

(** The tree with every text erased: what [tag], [get], [find] and
    [findall] can observe. *)
Fixpoint shape (e : element) : element :=
  match e with
  | Element tg at_ _ cs => Element tg at_ None (map shape cs)
  end.

(** The namespace prefixes of [pptx.oxml.ns] met in the diagram
    modules. *)
Definition nsmap : list (string * string) :=
  [ ("a", "http://schemas.openxmlformats.org/drawingml/2006/main");
    ("dgm", "http://schemas.openxmlformats.org/drawingml/2006/diagram") ].

(** [s.split(":")] for a tag with one colon. *)
Fixpoint split_colon (s : string) : string * string :=
  match s with
  | EmptyString => (EmptyString, EmptyString)
  | String c s' =>
      if decide (c = ":"%char) then (EmptyString, s')
      else let '(pfx, name) := split_colon s' in (String c pfx, name)
  end.

(** [qn("pfx:name")]: the Clark name "{uri}name". *)
Definition qn (namespace_prefixed_tag : string) : string :=
  let '(pfx, name) := split_colon namespace_prefixed_tag in
  "{" +:+ default "" (assoc pfx nsmap) +:+ "}" +:+ name.

End etree.

(* ------------------------------------------------------------------ *)
(** ** pptx/oxml/diagram.py                                            *)
(* ------------------------------------------------------------------ *)

Module oxml_diagram.
Import etree.

(** *** CT_DiagramData *)

(** [ptLst = OneAndOnlyOne("dgm:ptLst")]: the position of the required
    child, [InvalidXmlError] when it is missing. *)
Definition ptLst (self : element) : result nat :=
  match find (qn "dgm:ptLst") self with
  | Some i => Ok i
  | None => Raise InvalidXmlError
  end.

(** *** CT_DiagramPointList *)

Definition iter_pts (self : element) : list nat :=
  findall (qn "dgm:pt") self.

(** *** CT_DiagramPoint *)

(** [modelId = OptionalAttribute("modelId", XsdString)] *)
Definition modelId (self : element) : option string := get "modelId" self.

(** [type = OptionalAttribute("type", XsdString)] *)
Definition type (self : element) : option string := get "type" self.

(** [t = ZeroOrOne("dgm:t")]: the position of the optional child. *)
Definition t (self : element) : option nat := find (qn "dgm:t") self.

(** The paths, from the point, of the [a:t] elements below its [dgm:t]
    child: [self.t.findall(".//" + qn("a:t"))]. *)
Definition text_elements (self : element) (t_pos : nat) : list path :=
  match children self !! t_pos with
  | Some t_el => cons t_pos <$> findall_desc (qn "a:t") t_el
  | None => []
  end.

(** [el.text] is truthy: neither [None] nor empty. *)
Definition truthy_text (o : option string) : bool :=
  match o with
  | Some s => bool_decide (s ≠ "")
  | None => false
  end.

(** ["".join(ss)] *)
Definition join (ss : list string) : string := foldr String.app "" ss.

(** The [text] property. *)
Definition text_get (self : element) : string :=
  match t self with
  | None => ""
  | Some t_pos =>
      let text_elements := text_elements self t_pos in
      join (default "" <$>
              filter (λ o, truthy_text o) ((λ el, text_at el self) <$> text_elements))
  end.

(** The setter of [text], for a [value] that lxml takes as the text of
    an element; the result is the point after the call.  What lxml does
    with a value it refuses is added in [setters.text_setter]. *)
Definition text_set (value : string) (self : element) : element :=
  match t self with
  | None => self
  | Some t_pos =>
      match text_elements self t_pos with
      | [] => self
      | first :: rest =>
          foldl (λ self' el, set_text_at el (Some "") self')
                (set_text_at first (Some value) self) rest
      end
  end.

(** *** CT_DiagramConnectionList, CT_DiagramConnection *)

Definition iter_cxns (self : element) : list nat :=
  findall (qn "dgm:cxn") self.
Definition srcId (self : element) : option string := get "srcId" self.
Definition destId (self : element) : option string := get "destId" self.

End oxml_diagram.

(* ------------------------------------------------------------------ *)
(** ** pptx/parts/diagram.py                                           *)
(* ------------------------------------------------------------------ *)

Module parts_diagram.
Import etree.

(** The classes a part object can have, as far as [isinstance] tells
    them apart here. *)
Inductive PartClass : Type :=
| DiagramDataPart
| DiagramLayoutPart
| DiagramColorsPart
| DiagramStylePart
| DiagramDrawingPart
| OtherPart.

#[global] Instance PartClass_eq_dec : EqDecision PartClass.
Proof. solve_decision. Defined.

(** Part objects are addressed by their position in the package store;
    that position plays the role of the object's identity. *)
Abbreviation part_id := nat (only parsing).

Record _Relationship : Type := {
  reltype : string;
  target_part : part_id
}.

(** A part: its class, the root of its XML tree and its relationships
    keyed by rId, in insertion order.  For a part that is not an
    [XmlPart] the [_element] field stands for its blob, which nothing
    here reads. *)
Record Part : Type := {
  part_class : PartClass;
  _element : element;
  rels : list (string * _Relationship)
}.

(** The package: one part object per identity.  It is the state every
    operation on a diagram reads and updates. *)
Abbreviation package := (part_id → Part) (only parsing).

(** *** DiagramDataPart *)

Definition data_model (self : Part) : element := _element self.

(** *** DiagramDrawingPart *)

(** [update_all_text_elements], on the root element of the part; the
    result is the tree after the call.  Under the guard
    [idx < len(text_list)] the lookup [text_list !! idx] is
    [Some text_list[idx]], the text assigned. *)
Definition update_all_text_elements (text_list : list string) (self_element : element)
  : element :=
  let text_elements := findall_desc (qn "a:t") self_element in
  foldl (λ root '(idx, text_el),
           if decide (idx < length text_list)
           then set_text_at text_el (text_list !! idx) root
           else root)
        self_element (enumerate text_elements).

End parts_diagram.

(* ------------------------------------------------------------------ *)
(** ** pptx/shapes/smartart.py                                         *)
(* ------------------------------------------------------------------ *)

Module smartart.
Import etree parts_diagram.

(** Modelled from the spec: [RT.DIAGRAM_DRAWING] of
    [pptx.opc.constants], the reserved relationship type by which the
    part owning the diagram relates to a cache target. *)
Definition RT_DIAGRAM_DRAWING : string :=
  "http://schemas.microsoft.com/office/2007/relationships/diagramDrawing".

(** A reference to an element: the part whose tree holds it and the
    path to it from the root of that tree. *)
Record element_ref : Type := {
  ref_part : part_id;
  ref_path : path
}.

(** The element a reference leads to.  The references made below are
    made from elements found in a tree, and no operation changes the
    shape of a tree, so they always lead somewhere; the functions that
    follow a reference treat one that leads nowhere as an absent
    element only to be total. *)
Definition deref (pkg : package) (r : element_ref) : option element :=
  get_at (ref_path r) (_element (pkg (ref_part r))).

(** An object met on the [_parent] chain of a [SmartArt]: whether it is
    truthy, and its [part] attribute if [hasattr] finds one. *)
Record proxy : Type := {
  truthy : bool;
  part : option part_id
}.

(** A [SmartArt] object.  Its [_element] is [data_part.data_model], the
    root of the tree of its data part; its [_parent] chain is listed
    nearest first and ends where [_parent] is [None] or missing. *)
Record SmartArt : Type := {
  sa_data_part : part_id;
  sa_parent : list proxy
}.

(** An object met on the [_parent] chain of a node: a [SmartArt], or
    anything else. *)
Inductive ancestor : Type :=
| ASmartArt (sa : SmartArt)
| AOther.

Record _SmartArtNodes : Type := {
  nodes_element : element_ref;
  nodes_parent : list ancestor;
  nodes_data_part : option part_id
}.

Record SmartArtNode : Type := {
  node_pt : element_ref;
  node_parent : list ancestor;
  node_data_part : option part_id
}.

(** *** class _SmartArtNodes *)

(** The types of the points that are layout metadata: presentation
    points and the two kinds of transition. *)
Definition metadata_types : list (option string) :=
  [Some "pres"; Some "parTrans"; Some "sibTrans"].

(** [pt.type not in ("pres", "parTrans", "sibTrans")] *)
Definition is_content_type (pt_type : option string) : bool :=
  bool_decide (pt_type ∉ metadata_types).

(** The type of the child at position [i] of a point list. *)
Definition type_at (ptLst_el : element) (i : nat) : option string :=
  children ptLst_el !! i ≫= oxml_diagram.type.

(** The reference to child [i] of the element [r] refers to. *)
Definition child_ref (r : element_ref) (i : nat) : element_ref :=
  {| ref_part := ref_part r; ref_path := ref_path r ++ [i] |}.

(** [SmartArtNode(pt, self, self._data_part)] with [self] a collection:
    the collection becomes the [_parent] of the node. *)
Definition SmartArtNode_new (pt : element_ref) (collection : _SmartArtNodes)
  : SmartArtNode :=
  {| node_pt := pt;
     node_parent := AOther :: nodes_parent collection;
     node_data_part := nodes_data_part collection |}.

(** [__iter__] *)
Definition nodes_iter (pkg : package) (self : _SmartArtNodes) : list SmartArtNode :=
  match deref pkg (nodes_element self) with
  | None => []
  | Some ptLst_el =>
      i ← oxml_diagram.iter_pts ptLst_el;
      match children ptLst_el !! i with
      | None => []
      | Some pt =>
          if is_content_type (oxml_diagram.type pt)
          then [SmartArtNode_new (child_ref (nodes_element self) i) self]
          else []
      end
  end.

(** [__len__]: [sum(1 for _ in self)]. *)
Definition nodes_len (pkg : package) (self : _SmartArtNodes) : nat :=
  sum_list ((λ _, 1) <$> nodes_iter pkg self).

(** *** class SmartArtNode *)

(** The getter of [text]. *)
Definition node_text (pkg : package) (self : SmartArtNode) : string :=
  match deref pkg (node_pt self) with
  | Some pt => oxml_diagram.text_get pt
  | None => ""
  end.

Definition model_id (pkg : package) (self : SmartArtNode) : option string :=
  pt ← deref pkg (node_pt self); oxml_diagram.modelId pt.

Definition node_type (pkg : package) (self : SmartArtNode) : option string :=
  pt ← deref pkg (node_pt self); oxml_diagram.type pt.

(** *** class SmartArt *)

(** The [nodes] property. *)
Definition nodes (pkg : package) (self : SmartArt) : result _SmartArtNodes :=
  i ← oxml_diagram.ptLst (data_model (pkg (sa_data_part self)));
  Ok {| nodes_element := {| ref_part := sa_data_part self; ref_path := [i] |};
        nodes_parent := ASmartArt self :: ((λ _, AOther) <$> sa_parent self);
        nodes_data_part := Some (sa_data_part self) |}.

(** [iter_text], as the list of what it yields. *)
Definition iter_text (pkg : package) (self : SmartArt) : result (list string) :=
  ns ← nodes pkg self;
  Ok (node ← nodes_iter pkg ns;
      let text := node_text pkg node in
      if bool_decide (text ≠ "") then [text] else []).

Definition text_content (pkg : package) (self : SmartArt) : result (list string) :=
  iter_text pkg self.

(** The first loop of [_sync_drawing_part]: climb while the object is
    truthy and has no [part]. *)
Fixpoint climb_to_part (chain : list proxy) : option proxy :=
  match chain with
  | [] => None
  | parent :: chain' =>
      if truthy parent && bool_decide (part parent = None)
      then climb_to_part chain'
      else Some parent
  end.

(** The part [_sync_drawing_part] takes the relationships from, when it
    gets that far. *)
Definition slide_part_of (self : SmartArt) : option part_id :=
  parent ← climb_to_part (sa_parent self);
  if truthy parent then part parent else None.

Definition drawing_rels_of (slide_part : Part) : list _Relationship :=
  filter (λ rel, reltype rel = RT_DIAGRAM_DRAWING) (snd <$> rels slide_part).

(** One turn of the last loop of [_sync_drawing_part]. *)
Definition sync_one (texts : list string) (pkg : package) (rel : _Relationship)
  : package :=
  let drawing_part := target_part rel in
  if decide (part_class (pkg drawing_part) = DiagramDrawingPart)
  then <[ drawing_part :=
            {| part_class := part_class (pkg drawing_part);
               _element := update_all_text_elements texts (_element (pkg drawing_part));
               rels := rels (pkg drawing_part) |} ]> pkg
  else pkg.

(** [_sync_drawing_part]: the outcome of the call and the package when
    it ends. *)
Definition _sync_drawing_part (self : SmartArt) (pkg : package)
  : result unit * package :=
  match slide_part_of self with
  | None => (Ok (), pkg)
  | Some slide_part =>
      match drawing_rels_of (pkg slide_part) with
      | [] => (Ok (), pkg)
      | drawing_rels =>
          match text_content pkg self with
          | Raise e => (Raise e, pkg)
          | Ok texts => (Ok (), foldl (sync_one texts) pkg drawing_rels)
          end
      end
  end.

(** The loop of the setter of [SmartArtNode.text]: the first [SmartArt]
    up the [_parent] chain. *)
Fixpoint first_SmartArt (chain : list ancestor) : option SmartArt :=
  match chain with
  | [] => None
  | ASmartArt sa :: _ => Some sa
  | AOther :: chain' => first_SmartArt chain'
  end.

(** [self._pt.text = value] in the package, for a [value] that lxml
    takes. *)
Definition write_pt_text (r : element_ref) (value : string) (pkg : package) : package :=
  let p := pkg (ref_part r) in
  <[ ref_part r :=
       {| part_class := part_class p;
          _element := alter_at (oxml_diagram.text_set value) (ref_path r) (_element p);
          rels := rels p |} ]> pkg.

(** The setter of [SmartArtNode.text], for a [value] that lxml takes;
    [setters.node_text_setter] adds the values it refuses. *)
Definition node_text_set (self : SmartArtNode) (value : string) (pkg : package)
  : result unit * package :=
  let pkg := write_pt_text (node_pt self) value pkg in
  match node_data_part self with
  | None => (Ok (), pkg)
  | Some _ =>
      match first_SmartArt (node_parent self) with
      | Some sa => _sync_drawing_part sa pkg
      | None => (Ok (), pkg)
      end
  end.

End smartart.

(* ------------------------------------------------------------------ *)
(** ** Assigning a text that lxml may refuse                           *)
(* ------------------------------------------------------------------ *)

(** The two setters end in [el.text = value], which lxml carries out in
    two steps: it first removes the text the element has, then checks
    the value, and raises [ValueError] when the value is not XML
    compatible, leaving the element without text.  This section adds
    that failure to the setters above. *)

Module setters.
Import etree parts_diagram smartart.

(** libxml2's [xmlIsChar_ch], the test lxml applies to a byte below
    128: tab, line feed, carriage return, or no control character. *)
Definition xmlIsChar_ch (c : ascii) : bool :=
  let n := N_of_ascii c in
  bool_decide ((9 ≤ n ≤ 10)%N ∨ n = 13%N ∨ (32 ≤ n)%N).

(** The three-byte sequences lxml refuses in a UTF-8 encoded text, for
    a sequence that starts with the byte [c] and goes on in [s]: EF BF BE
    and EF BF BF, which encode U+FFFE and U+FFFF, and ED A0 80 to
    ED BF BF, which encode the surrogates. *)
Definition forbidden_utf8 (c : ascii) (s : string) : bool :=
  match s with
  | String c1 (String c2 _) =>
      let next3 := (N_of_ascii c * 65536 + N_of_ascii c1 * 256 + N_of_ascii c2)%N in
      bool_decide (next3 = 15712190%N ∨ next3 = 15712191%N
                   ∨ (15573120 ≤ next3 ≤ 15581119)%N)
  | _ => false
  end.

(** Whether lxml takes [value] as the text of an element, as its
    [_is_valid_xml_utf8] decides on the UTF-8 encoding of the value: no
    NUL byte and no control character other than tab, line feed and
    carriage return, and none of the forbidden sequences.  A Python
    string is modelled by the bytes of its UTF-8 encoding. *)
Fixpoint xml_compatible (value : string) : bool :=
  match value with
  | EmptyString => true
  | String c value' =>
      (if bool_decide (128 ≤ N_of_ascii c)%N
       then negb (forbidden_utf8 c value')
       else xmlIsChar_ch c)
      && xml_compatible value'
  end.

(** The message of the [ValueError] lxml raises. *)
Definition not_xml_compatible_msg : string :=
  "All strings must be XML compatible: Unicode or ASCII, no NULL bytes or control characters".

(** [el.text = value] for the element at [el] of the tree [root]: the
    outcome and the tree after the statement. *)
Definition assign_text (el : path) (value : string) (root : element)
  : result unit * element :=
  let root' := set_text_at el None root in
  if xml_compatible value
  then (Ok (), set_text_at el (Some value) root')
  else (Raise (ValueError not_xml_compatible_msg), root').

(** [for el in els: el.text = value], ended by the first assignment
    that raises. *)
Fixpoint assign_text_each (els : list path) (value : string) (root : element)
  : result unit * element :=
  match els with
  | [] => (Ok (), root)
  | el :: els' =>
      match assign_text el value root with
      | (Ok _, root') => assign_text_each els' value root'
      | (Raise e, root') => (Raise e, root')
      end
  end.

(** The setter of [CT_DiagramPoint.text]: the outcome of the call and
    the point after it, also when it raises. *)
Definition text_setter (value : string) (self : element) : result unit * element :=
  match oxml_diagram.t self with
  | None => (Ok (), self)
  | Some t_pos =>
      match oxml_diagram.text_elements self t_pos with
      | [] => (Ok (), self)
      | first :: rest =>
          match assign_text first value self with
          | (Ok _, self') => assign_text_each rest "" self'
          | (Raise e, self') => (Raise e, self')
          end
      end
  end.

(** [self._pt.text = value] in the package: the outcome of the
    statement and the package after it. *)
Definition write_pt (r : element_ref) (value : string) (pkg : package)
  : result unit * package :=
  let p := pkg (ref_part r) in
  let outcome :=
    match deref pkg r with
    | Some pt => (text_setter value pt).1
    | None => Ok ()
    end in
  (outcome,
   <[ ref_part r :=
        {| part_class := part_class p;
           _element := alter_at (λ pt, (text_setter value pt).2) (ref_path r) (_element p);
           rels := rels p |} ]> pkg).

(** The setter of [SmartArtNode.text]: the outcome of the call and the
    package after it.  When the write to the point raises, the call ends
    there and nothing is synchronised. *)
Definition node_text_setter (self : SmartArtNode) (value : string) (pkg : package)
  : result unit * package :=
  match write_pt (node_pt self) value pkg with
  | (Raise e, pkg') => (Raise e, pkg')
  | (Ok _, pkg') =>
      match node_data_part self with
      | None => (Ok (), pkg')
      | Some _ =>
          match first_SmartArt (node_parent self) with
          | Some sa => _sync_drawing_part sa pkg'
          | None => (Ok (), pkg')
          end
      end
  end.

End setters.

(* ------------------------------------------------------------------ *)
(** ** The vocabulary of the specification                             *)
(* ------------------------------------------------------------------ *)

(** Definitions that follow the words of the specification; the program
    above is compared with them in Part II. *)

Module spec.
Import etree parts_diagram.

(** Positional overwrite of a sequence of cells: cell [i] receives
    element [i] of [new] for every index present in both; cells beyond
    the length of [new] are left as they are; elements of [new] beyond the
    cell count are dropped. *)
Fixpoint overwrite {A} (new cells : list A) : list A :=
  match new, cells with
  | x :: new', _ :: cells' => x :: overwrite new' cells'
  | _, _ => cells
  end.

(** The ordered text-cell sequence of a cache target: the text of each
    [a:t] element of its tree, in document order. *)
Definition cells (root : element) : list (option string) :=
  (λ el, text_at el root) <$> findall_desc (qn "a:t") root.

(** The runs of the text container of a point: the text of each [a:t]
    element below its [dgm:t] child, in document order; none without a
    text container. *)
Definition runs (pt : element) : list (option string) :=
  match oxml_diagram.t pt with
  | None => []
  | Some t_pos => (λ el, text_at el pt) <$> oxml_diagram.text_elements pt t_pos
  end.

(** A run is populated when it holds a non-empty text. *)
Definition populated (run : option string) : bool := oxml_diagram.truthy_text run.

(** The complete ordered text sequence of a collection: the text of
    every node the collection iterates over, empty texts included. *)
Definition node_texts (pkg : package) (sa : smartart.SmartArt) : result (list string) :=
  ns ← smartart.nodes pkg sa;
  Ok (smartart.node_text pkg <$> smartart.nodes_iter pkg ns).

(** The parent of a leaf in one higher level, by the scan of the
    Parentage Algorithm: the candidate starts as the first entry of the
    level, every entry whose index does not exceed the leaf index
    replaces it in turn, and the scan stops at the first entry whose
    index exceeds the leaf index.  A level without entries has no
    parent to offer. *)
Definition parent_in (leaf_index : nat) (level : list category.c_pt)
  : option category.c_pt :=
  match level with
  | [] => None
  | first :: _ =>
      Some (default first
              (last (take_while (λ e, bool_decide (category.pt_idx e ≤ leaf_index)) level)))
  end.

(** The ancestors of a leaf, nearest first: one parent per higher level,
    each found from the index of the leaf itself, up to the first level
    that has no entries. *)
Fixpoint ancestors (leaf_index : nat) (higher : list category.CT_Lvl)
  : list category.c_pt :=
  match higher with
  | [] => []
  | lvl :: higher' =>
      match parent_in leaf_index (category.pt_lst lvl) with
      | None => []
      | Some parent => parent :: ancestors leaf_index higher'
      end
  end.

End spec.

(* ------------------------------------------------------------------ *)
(** ** Sample data                                                     *)
(* ------------------------------------------------------------------ *)

(** Concrete charts and diagrams on which the properties of Part II are
    exercised. *)

Module fixtures.
Import category.

Definition pt (i : nat) (v : string) : c_pt := {| pt_idx := i; pt_v_text := Some v |}.

(** [<c:pt idx="i"><c:v/></c:pt>]: a point whose [c:v] is empty. *)
Definition pt_empty_v (i : nat) : c_pt := {| pt_idx := i; pt_v_text := None |}.
Definition lvl (pts : list c_pt) : CT_Lvl := {| pt_lst := pts |}.

Definition multi_level (count : nat) (lvls : list CT_Lvl) (part : option ChartPart)
  : Categories :=
  {| _xChart :=
       {| cat := Some {| multiLvlStrRef := Some {| lvl_lst := lvls |}; str_cache := [] |};
          cat_pts := Some <$> default [] (pt_lst <$> head lvls);
          cat_pt_count := count |};
     _chart_part := part |}.

Definition flat (pts : list (option c_pt)) (part : option ChartPart) : Categories :=
  {| _xChart :=
       {| cat := Some {| multiLvlStrRef := None;
                         str_cache := (λ o, default "" (o ≫= pt_v_text)) <$> pts |};
          cat_pts := pts;
          cat_pt_count := length pts |};
     _chart_part := part |}.

Definition no_categories (part : option ChartPart) : Categories :=
  {| _xChart := {| cat := None; cat_pts := []; cat_pt_count := 0 |};
     _chart_part := part |}.

(** Four leaves under two parents, "A" from leaf 0 and "B" from leaf 2. *)
Definition two_levels : Categories :=
  multi_level 4
    [ lvl [pt 0 "a"; pt 1 "b"; pt 2 "c"; pt 3 "d"];
      lvl [pt 0 "A"; pt 2 "B"] ] None.

(** The first parent starts at leaf 1, so leaf 0 precedes every parent. *)
Definition late_first_parent : Categories :=
  multi_level 3
    [ lvl [pt 0 "a"; pt 1 "b"; pt 2 "c"];
      lvl [pt 1 "P"; pt 2 "Q"] ] None.

(** Three levels in which the index of the parent of leaf 3 (which is 2)
    and the index of the leaf select different grandparents. *)
Definition three_levels : Categories :=
  multi_level 4
    [ lvl [pt 0 "a"; pt 1 "b"; pt 2 "c"; pt 3 "d"];
      lvl [pt 0 "P"; pt 2 "Q"];
      lvl [pt 0 "X"; pt 3 "Y"] ] None.

(** Three levels, the middle one present but without entries. *)
Definition empty_middle_level : Categories :=
  multi_level 2
    [ lvl [pt 0 "a"; pt 1 "b"]; lvl []; lvl [pt 0 "X"] ] None.

(** A multi-level reference without any level. *)
Definition no_levels : Categories := multi_level 0 [] None.

(** Three levels in which the [c:v] of a leaf and of a parent are
    empty. *)
Definition empty_v_levels : Categories :=
  multi_level 3
    [ lvl [pt 0 "a"; pt_empty_v 1; pt 2 "c"];
      lvl [pt_empty_v 0; pt 2 "Q"];
      lvl [pt 0 "X"; pt 2 "Y"] ] None.

(** Four flat positions: a point, a position without point, a point
    whose [c:v] is empty, a point. *)
Definition flat_with_gaps : Categories :=
  flat [Some (pt 0 "x"); None; Some (pt_empty_v 2); Some (pt 3 "z")] None.

(** Two flat categories on a chart whose part cannot be reached. *)
Definition flat_without_part : Categories := flat [Some (pt 0 "x"); Some (pt 1 "y")] None.

End fixtures.

Module diagram_fixtures.
Import etree parts_diagram smartart.

(** An element without attributes or text. *)
Definition el (tg : string) (cs : list element) : element :=
  Element (qn tg) [] None cs.

(** [<a:r><a:t>s</a:t></a:r>] *)
Definition a_r (s : string) : element :=
  el "a:r" [Element (qn "a:t") [] (Some s) []].

(** [<dgm:t><a:bodyPr/><a:lstStyle/><a:p> runs </a:p></dgm:t>] *)
Definition dgm_t (texts : list string) : element :=
  el "dgm:t" [el "a:bodyPr" []; el "a:lstStyle" []; el "a:p" (a_r <$> texts)].

(** A point with the given attributes and children. *)
Definition dgm_pt (attrs : list (string * string)) (cs : list element) : element :=
  Element (qn "dgm:pt") attrs None cs.

(** A point whose text container holds three runs. *)
Definition pt_three_runs : element :=
  dgm_pt [("modelId", "{test}")] [dgm_t ["Hello "; "big "; "World"]].

(** A point whose text container holds one run. *)
Definition pt_one_run : element :=
  dgm_pt [("modelId", "{test}")] [dgm_t ["Old Text"]].

(** A point without text container. *)
Definition pt_bare : element := dgm_pt [("modelId", "{test}")] [].

(** A point list with content points and the three kinds of points that
    the collection skips. *)
Definition ptLst_mixed : element :=
  el "dgm:ptLst"
    [ dgm_pt [("modelId", "{id1}")] [];
      dgm_pt [("modelId", "{id2}"); ("type", "pres")] [];
      dgm_pt [("modelId", "{id3}"); ("type", "parTrans")] [];
      dgm_pt [("modelId", "{id4}"); ("type", "sibTrans")] [];
      dgm_pt [("modelId", "{id5}"); ("type", "doc")] [] ].

(** A data model: the document point (no runs), two content points, a
    presentation point and a sibling transition. *)
Definition data_model_el : element :=
  el "dgm:dataModel"
    [ el "dgm:ptLst"
        [ dgm_pt [("modelId", "{doc}"); ("type", "doc")] [el "dgm:prSet" []; dgm_t []];
          dgm_pt [("modelId", "{n1}")] [el "dgm:prSet" []; dgm_t ["one"]];
          dgm_pt [("modelId", "{p1}"); ("type", "pres")] [el "dgm:prSet" []];
          dgm_pt [("modelId", "{s1}"); ("type", "sibTrans")] [dgm_t []];
          dgm_pt [("modelId", "{n2}")] [el "dgm:prSet" []; dgm_t ["two"]] ];
      el "dgm:cxnLst" [] ].

(** An element of the drawing namespace. *)
Definition dsp (name : string) (cs : list element) : element :=
  Element ("{http://schemas.microsoft.com/office/drawing/2008/diagram}" +:+ name) [] None cs.

(** A shape of the drawing showing one text. *)
Definition dsp_sp (s : string) : element :=
  dsp "sp" [dsp "txBody" [el "a:bodyPr" []; el "a:p" [a_r s]]].

(** The cached drawing of the data model above: one shape per content
    point that has text. *)
Definition drawing_el : element :=
  dsp "drawing" [dsp "spTree" [dsp_sp "one"; dsp_sp "two"]].

(** A slide part related to the data part (1) and to the drawing part
    (2) of its diagram; the other positions of the store hold parts of
    no interest. *)
Definition slide : Part :=
  {| part_class := OtherPart;
     _element := el "p:sld" [];
     rels :=
       [ ("rId2",
          {| reltype := "http://schemas.openxmlformats.org/officeDocument/2006/relationships/diagramData";
             target_part := 1 |});
         ("rId6", {| reltype := RT_DIAGRAM_DRAWING; target_part := 2 |}) ] |}.

Definition pkg : nat → Part := λ i,
  match i with
  | 0 => slide
  | 1 => {| part_class := DiagramDataPart; _element := data_model_el; rels := [] |}
  | 2 => {| part_class := DiagramDrawingPart; _element := drawing_el; rels := [] |}
  | _ => {| part_class := OtherPart; _element := el "other" []; rels := [] |}
  end.

(** The SmartArt of the slide: its parent is the graphic frame, whose
    [part] is the slide part. *)
Definition sa : SmartArt :=
  {| sa_data_part := 1; sa_parent := [ {| truthy := true; part := Some 0 |} ] |}.

(** The collection [sa.nodes] and its nodes for the points "{n1}" and
    "{n2}". *)
Definition sa_nodes : _SmartArtNodes :=
  {| nodes_element := {| ref_part := 1; ref_path := [0] |};
     nodes_parent := [ASmartArt sa; AOther];
     nodes_data_part := Some 1 |}.
Definition node_n1 : SmartArtNode :=
  SmartArtNode_new {| ref_part := 1; ref_path := [0; 1] |} sa_nodes.
Definition node_n2 : SmartArtNode :=
  SmartArtNode_new {| ref_part := 1; ref_path := [0; 4] |} sa_nodes.

(** A collection made from a bare point list, as the unit tests do:
    [_SmartArtNodes(pt_lst, None, None)]. *)
Definition bare_pkg : nat → Part := λ _,
  {| part_class := OtherPart; _element := ptLst_mixed; rels := [] |}.
Definition bare_nodes : _SmartArtNodes :=
  {| nodes_element := {| ref_part := 0; ref_path := [] |};
     nodes_parent := [];
     nodes_data_part := None |}.

End diagram_fixtures.

(* ------------------------------------------------------------------ *)
(** ** Further vocabulary and sample data                              *)
(* ------------------------------------------------------------------ *)

Module observations.
Import etree parts_diagram smartart.

(** The paths, from a point, of its runs: the [a:t] elements below its
    [dgm:t] child; none without a text container. *)
Definition run_paths (pt : element) : list path :=
  match oxml_diagram.t pt with
  | None => []
  | Some t_pos => oxml_diagram.text_elements pt t_pos
  end.

(** The paths of the cells of a drawing. *)
Definition cell_paths (root : element) : list path := findall_desc (qn "a:t") root.

(** An ancestor that leaves the climb of [_sync_drawing_part] going: it
    is truthy and has no [part]. *)
Definition passes (x : proxy) : Prop := truthy x = true ∧ part x = None.

(** A point with a text container that holds no run. *)
Definition pt_no_runs : element :=
  diagram_fixtures.dgm_pt [("modelId", "{test}")] [diagram_fixtures.dgm_t []].

(** A drawing with three cells. *)
Definition drawing_three_cells : element :=
  diagram_fixtures.dsp "drawing"
    [diagram_fixtures.dsp "spTree"
       [diagram_fixtures.dsp_sp "one"; diagram_fixtures.dsp_sp "two";
        diagram_fixtures.dsp_sp "three"]].

(** A SmartArt as the unit tests build it: [SmartArt(data_part, None)]. *)
Definition sa_detached : SmartArt := {| sa_data_part := 1; sa_parent := [] |}.

(** A SmartArt below an empty shape collection: the collection is falsy,
    its own parent has the slide part. *)
Definition sa_below_falsy : SmartArt :=
  {| sa_data_part := 1;
     sa_parent := [ {| truthy := true; part := None |};
                    {| truthy := false; part := Some 0 |};
                    {| truthy := true; part := Some 0 |} ] |}.

(** A text lxml refuses: it holds the control character 1. *)
Definition control_text : string := String (ascii_of_nat 1) "x".

(** The sample package with a further drawing part at position 3, which
    no relationship of the slide targets. *)
Definition pkg_two_drawings : nat → Part := λ i,
  match i with
  | 3 => {| part_class := DiagramDrawingPart;
            _element := drawing_three_cells;
            rels := [] |}
  | _ => diagram_fixtures.pkg i
  end.

(** A SmartArt two objects below the slide. *)
Definition sa_nested : SmartArt :=
  {| sa_data_part := 1;
     sa_parent := [ {| truthy := true; part := None |};
                    {| truthy := true; part := Some 0 |} ] |}.

End observations.

(* ================================================================== *)
(** * Part II: properties                                              *)
(* ================================================================== *)

(** ** Lists *)

Lemma last_cons_default {A} (x : A) (l : list A) :
  last (x :: l) = Some (default x (last l)).
Proof. rewrite last_cons. by destruct (last l). Qed.

Lemma overwrite_length {A} (new cells : list A) :
  length (spec.overwrite new cells) = length cells.
Proof.
  revert cells. induction new as [|x new IH]; intros [|c cells]; simpl; auto.
Qed.

Lemma overwrite_lookup_lt {A} (new cells : list A) (i : nat) :
  i < length new → i < length cells →
  spec.overwrite new cells !! i = new !! i.
Proof.
  revert cells i. induction new as [|x new IH]; intros [|c cells] [|i]; simpl;
    intros; try lia; auto with lia.
Qed.

Lemma overwrite_lookup_ge {A} (new cells : list A) (i : nat) :
  length new ≤ i → spec.overwrite new cells !! i = cells !! i.
Proof.
  revert cells i. induction new as [|x new IH]; intros [|c cells] [|i]; simpl;
    intros; try lia; auto with lia.
Qed.

Lemma overwrite_idemp {A} (new cells : list A) :
  spec.overwrite new (spec.overwrite new cells) = spec.overwrite new cells.
Proof.
  revert cells. induction new as [|x new IH]; intros [|c cells]; simpl; auto.
  by rewrite IH.
Qed.

Lemma overwrite_same_length {A} (new cells : list A) :
  length new = length cells → spec.overwrite new cells = new.
Proof.
  revert cells. induction new as [|x new IH]; intros [|c cells]; simpl;
    intros; try lia; auto.
  f_equal. apply IH. lia.
Qed.

(* ------------------------------------------------------------------ *)
(** ** Chart categories                                                *)
(* ------------------------------------------------------------------ *)

Module category_facts.
Import category.

(** *** The scan for a parent *)

Lemma idx_Category_pt (pt : c_pt) : idx (Category_pt pt) = Some (pt_idx pt).
Proof. reflexivity. Qed.

(** The loop, started with candidate [p], ends with the last entry of the
    longest prefix of the level whose indices do not exceed the index of
    the leaf, or with [p] when that prefix is empty. *)
Lemma scan_parent_prefix (leaf_node : Category) (n : nat) (p : c_pt) (entries : list c_pt) :
  idx leaf_node = Some n →
  scan_parent leaf_node (Category_pt p) (Category_pt <$> entries)
  = Ok (Category_pt
          (default p (last (take_while (λ e, bool_decide (pt_idx e ≤ n)) entries)))).
Proof.
  intros Hn. revert p. induction entries as [|e entries IH]; intros p; [done|].
  cbn [fmap list_fmap scan_parent take_while]. rewrite idx_Category_pt, Hn. simpl.
  destruct (decide (n < pt_idx e)) as [Hlt|Hge].
  - rewrite bool_decide_true by done. rewrite (bool_decide_false (pt_idx e ≤ n)) by lia.
    done.
  - rewrite bool_decide_false by done. rewrite (bool_decide_true (pt_idx e ≤ n)) by lia.
    rewrite last_cons_default. simpl. apply IH.
Qed.

Lemma parentage_empty_level (categories : list Category) (lvl : CT_Lvl)
    (remaining : list CategoryLevel) :
  pt_lst lvl = [] →
  _parentage categories (Build_CategoryLevel lvl :: remaining) = Ok categories.
Proof.
  intros Hlvl. cbn [_parentage]. unfold CategoryLevel_len. simpl. by rewrite Hlvl.
Qed.

Lemma parentage_step (c0 : Category) (cs : list Category) (lvl : CT_Lvl)
    (first : c_pt) (rest : list c_pt) (remaining : list CategoryLevel) :
  pt_lst lvl = first :: rest →
  _parentage (c0 :: cs) (Build_CategoryLevel lvl :: remaining)
  = scan_parent c0 (Category_pt first) (Category_pt <$> pt_lst lvl)
      ≫= λ parent, _parentage ((c0 :: cs) ++ [parent]) remaining.
Proof.
  intros Hlvl. cbn [_parentage].
  unfold CategoryLevel_len, CategoryLevel_getitem, CategoryLevel_iter. cbn [_lvl].
  rewrite Hlvl. reflexivity.
Qed.

Lemma parentage_chain (n : nat) (higher : list CT_Lvl) (c0 : Category) (cs : list Category) :
  idx c0 = Some n →
  _parentage (c0 :: cs) (Build_CategoryLevel <$> higher)
  = Ok (c0 :: cs ++ (Category_pt <$> spec.ancestors n higher)).
Proof.
  intros Hn. revert cs. induction higher as [|lvl higher IH]; intros cs.
  - simpl. by rewrite app_nil_r.
  - rewrite fmap_cons. cbn [spec.ancestors]. unfold spec.parent_in.
    destruct (pt_lst lvl) as [|first rest] eqn:Hlvl.
    + rewrite parentage_empty_level by done. simpl. by rewrite app_nil_r.
    + rewrite (parentage_step _ _ _ first rest) by done.
      rewrite Hlvl, (scan_parent_prefix c0 n first (first :: rest) Hn).
      cbn [mbind result_bind]. rewrite <- app_comm_cons, IH, fmap_cons.
      by rewrite <- app_assoc.
Qed.

(** C2.  For a leaf entry and any higher levels, the chain computed by
    [_parentage] is the leaf followed by one parent per higher level, and
    the parent in each level is the one the predecessor scan of the
    specification finds from the index of the original leaf: the last
    entry before the first whose index exceeds the leaf index, the first
    entry of the level when already its index exceeds the leaf index. *)
Theorem parentage_is_predecessor_search (leaf : c_pt) (higher : list CT_Lvl) :
  _parentage [Category_pt leaf] (Build_CategoryLevel <$> higher)
  = Ok (Category_pt leaf :: (Category_pt <$> spec.ancestors (pt_idx leaf) higher)).
Proof. apply (parentage_chain (pt_idx leaf) higher (Category_pt leaf) []). reflexivity. Qed.

Lemma mapM_fmap_Ok {A B C} (f : B → result C) (h : A → B) (g : A → C) (l : list A) :
  (∀ x, x ∈ l → f (h x) = Ok (g x)) → mapM f (h <$> l) = Ok (g <$> l).
Proof.
  induction l as [|x l IH]; intros Hf; [done|].
  rewrite !fmap_cons. cbn [mapM]. rewrite Hf by left. cbn [mbind result_bind].
  rewrite IH by (intros y Hy; apply Hf; by right). done.
Qed.

(** In a collection with a multi-level reference, every entry of the leaf
    level gets such a chain: itself, then its parent in each higher
    level. *)
Lemma iter_flattened_categories_chains (self : Categories) (c : CT_AxDataSource)
    (leaf_level : CT_Lvl) (higher : list CT_Lvl) :
  cat (_xChart self) = Some c →
  lvls c = leaf_level :: higher →
  _iter_flattened_categories self
  = Ok ((λ leaf, Category_pt leaf
                   :: (Category_pt <$> spec.ancestors (pt_idx leaf) higher))
          <$> pt_lst leaf_level).
Proof.
  intros Hcat Hlvls. unfold _iter_flattened_categories, levels.
  rewrite Hcat, Hlvls, fmap_cons. unfold CategoryLevel_iter. cbn [_lvl].
  apply mapM_fmap_Ok. intros leaf _.
  apply (parentage_chain (pt_idx leaf) higher (Category_pt leaf) []). reflexivity.
Qed.

(** The worked examples of the specification. *)

Example two_levels_flattened :
  flattened_labels fixtures.two_levels
  = Ok [["A"; "a"]; ["A"; "b"]; ["B"; "c"]; ["B"; "d"]].
Proof. reflexivity. Qed.

Example leaf_before_every_parent :
  flattened_labels fixtures.late_first_parent
  = Ok [["P"; "a"]; ["P"; "b"]; ["Q"; "c"]].
Proof. reflexivity. Qed.

Example grandparent_follows_leaf_index :
  flattened_labels fixtures.three_levels
  = Ok [["X"; "P"; "a"]; ["X"; "P"; "b"]; ["X"; "Q"; "c"]; ["Y"; "Q"; "d"]].
Proof. reflexivity. Qed.

(** When already the first entry of a level exceeds the leaf index, the
    parent is that first entry. *)
Lemma parent_in_fallback (n : nat) (first : c_pt) (rest : list c_pt) :
  n < pt_idx first → spec.parent_in n (first :: rest) = Some first.
Proof.
  intros Hlt. unfold spec.parent_in. cbn [take_while].
  by rewrite bool_decide_false by lia.
Qed.

(** The scan over a level whose indices do not decrease, started with a
    candidate [d] that no entry precedes, ends on an entry with the
    largest index not exceeding [n]. *)
Lemma scan_greatest (n : nat) (l : list c_pt) (d : c_pt) :
  StronglySorted (λ a b, pt_idx a ≤ pt_idx b) l →
  pt_idx d ≤ n →
  (∀ e, e ∈ l → pt_idx d ≤ pt_idx e) →
  ∃ q, default d (last (take_while (λ e, bool_decide (pt_idx e ≤ n)) l)) = q
       ∧ (q = d ∨ q ∈ l) ∧ pt_idx q ≤ n ∧ pt_idx d ≤ pt_idx q
       ∧ ∀ e, e ∈ l → pt_idx e ≤ n → pt_idx e ≤ pt_idx q.
Proof.
  revert d. induction l as [|x l IH]; intros d Hs Hd Hlow.
  - exists d. repeat split; auto. intros e He. by apply elem_of_nil in He.
  - apply StronglySorted_inv in Hs as [Hs Hall]. rewrite Forall_forall in Hall.
    cbn [take_while]. destruct (decide (pt_idx x ≤ n)) as [Hx|Hx].
    + rewrite bool_decide_true by done. rewrite last_cons_default. cbn [default from_option id].
      destruct (IH x Hs Hx Hall) as (q & Hq & Hin & Hq1 & Hq2 & Hq3).
      exists q. repeat split; auto.
      * right. destruct Hin as [->|Hin]; [left|by right].
      * etrans; [|exact Hq2]. apply Hlow. left.
      * intros e [->|He]%elem_of_cons He'; auto.
    + rewrite bool_decide_false by done. exists d. repeat split; auto.
      intros e [->|He]%elem_of_cons He'; [lia|].
      specialize (Hall e He). lia.
Qed.

(** In a level whose indices do not decrease and whose first entry does
    not exceed the leaf index, the parent is an entry with the largest
    index not exceeding the leaf index. *)
Lemma parent_in_greatest (n : nat) (level : list c_pt) (first p : c_pt) :
  StronglySorted (λ a b, pt_idx a ≤ pt_idx b) level →
  head level = Some first →
  pt_idx first ≤ n →
  spec.parent_in n level = Some p →
  p ∈ level ∧ pt_idx p ≤ n ∧ ∀ e, e ∈ level → pt_idx e ≤ n → pt_idx e ≤ pt_idx p.
Proof.
  intros Hsorted Hhead Hfirst. destruct level as [|first' rest]; [done|].
  injection Hhead as ->. unfold spec.parent_in. intros Hp.
  destruct (scan_greatest n (first :: rest) first Hsorted Hfirst)
    as (q & Hq & Hin & Hq1 & _ & Hq3).
  { intros e [->|He]%elem_of_cons; [done|].
    apply StronglySorted_inv in Hsorted as [_ Hall].
    rewrite Forall_forall in Hall. by apply Hall. }
  rewrite Hq in Hp. injection Hp as <-.
  repeat split; auto. destruct Hin as [->|Hin]; [left|done].
Qed.

(** C7.  When the next higher level is present but has no entries,
    [_parentage] returns the chain built so far as it stands, without an
    error, whatever levels follow the empty one; hence levels put after
    an empty level never change the outcome. *)
Theorem parentage_stops_at_empty_level (categories : list Category)
    (lower beyond : list CategoryLevel) :
  _parentage categories (Build_CategoryLevel {| pt_lst := [] |} :: beyond) = Ok categories
  ∧ _parentage categories (lower ++ Build_CategoryLevel {| pt_lst := [] |} :: beyond)
    = _parentage categories lower.
Proof.
  split; [by apply parentage_empty_level|].
  revert categories. induction lower as [|[lvl] lower IH]; intros categories.
  - by apply parentage_empty_level.
  - rewrite <- app_comm_cons. cbn [_parentage].
    destruct (decide _); [done|].
    destruct (getitem categories 0); [|done]. cbn [mbind result_bind].
    destruct (CategoryLevel_getitem _ 0); [|done]. cbn [mbind result_bind].
    destruct (scan_parent _ _ _); [|done]. cbn [mbind result_bind].
    apply IH.
Qed.

(** With an empty middle level the chains are shorter than [depth]. *)
Example empty_middle_level_flattened :
  depth fixtures.empty_middle_level = 3
  ∧ flattened_labels fixtures.empty_middle_level = Ok [["a"]; ["b"]].
Proof. split; reflexivity. Qed.

(** C6.  [depth] is 0 when the plot has no category element, 1 when the
    category element holds a flat reference (no multi-level reference),
    and the number of level elements of the multi-level reference
    otherwise. *)
Theorem depth_cases (pts : list (option c_pt)) (count : nat) (part : option ChartPart)
    (cache : list string) (ref : CT_MultiLvlStrRef) :
  let categories_of (c : option CT_AxDataSource) : Categories :=
    {| _xChart := {| cat := c; cat_pts := pts; cat_pt_count := count |};
       _chart_part := part |} in
  depth (categories_of None) = 0
  ∧ depth (categories_of (Some {| multiLvlStrRef := None; str_cache := cache |})) = 1
  ∧ depth (categories_of (Some {| multiLvlStrRef := Some ref; str_cache := cache |}))
    = length (lvl_lst ref).
Proof. repeat split. Qed.

(** C9.  A collection of depth 0 has no flattened labels and no levels. *)
Theorem depth_zero_is_empty (self : Categories) :
  depth self = 0 → flattened_labels self = Ok [] ∧ levels self = [].
Proof.
  unfold depth, flattened_labels, _iter_flattened_categories, levels.
  destruct (cat (_xChart self)) as [c|]; [|done].
  destruct (multiLvlStrRef c) as [ref|] eqn:Href; [|done].
  intros Hlen. apply nil_length_inv in Hlen. by rewrite Hlen.
Qed.

Lemma depth_zero_is_empty_witness :
  flattened_labels fixtures.no_levels = Ok [] ∧ levels fixtures.no_levels = [].
Proof. apply (depth_zero_is_empty fixtures.no_levels). reflexivity. Defined.

Example no_categories_is_empty :
  depth (fixtures.no_categories None) = 0
  ∧ flattened_labels (fixtures.no_categories None) = Ok []
  ∧ levels (fixtures.no_categories None) = [].
Proof. repeat split. Qed.

(** *** Relabelling *)

(** C3.  Called with a sequence whose length differs from the category
    count, [update_all] always raises the length-mismatch error, whether
    or not a chart part can be reached; called with a sequence of the
    right length when there is no chart part, it raises the error for
    the unavailable chart part; in both cases the object, with its
    workbook and its cached strings, is as it was before the call. *)
Theorem update_all_errors_leave_no_trace (self : Categories) (new_categories : list string) :
  length new_categories ≠ Categories_len self ∨ _chart_part self = None →
  update_all self new_categories
  = (Raise (ValueError
              (if decide (length new_categories ≠ Categories_len self)
               then length_mismatch_msg (length new_categories) (Categories_len self)
               else chart_part_unavailable_msg)),
     self).
Proof.
  intros Hcase. unfold update_all.
  destruct (decide (length new_categories ≠ Categories_len self)) as [Hlen|Hlen]; [done|].
  destruct Hcase as [Hcase|Hcase]; [done|]. by rewrite Hcase.
Qed.

Lemma update_all_errors_leave_no_trace_witness :
  update_all fixtures.flat_without_part ["X"; "Y"]
  = (Raise (ValueError chart_part_unavailable_msg), fixtures.flat_without_part).
Proof.
  exact (update_all_errors_leave_no_trace fixtures.flat_without_part ["X"; "Y"]
           (or_intror eq_refl)).
Defined.

Example update_all_wrong_length :
  update_all fixtures.flat_without_part ["z"]
  = (Raise (ValueError "New categories length (1) must match current length (2)"),
     fixtures.flat_without_part).
Proof. reflexivity. Qed.

Example update_all_success :
  let part := Some {| chart_workbook := {| xlsx_categories := Some ["x"; "y"] |} |} in
  let before := fixtures.flat [Some (fixtures.pt 0 "x"); Some (fixtures.pt 1 "y")] part in
  ∃ after,
    update_all before ["X"; "Y"] = (Ok (), after)
    ∧ (chart_workbook <$> _chart_part after) = Some {| xlsx_categories := Some ["X"; "Y"] |}
    ∧ (str_cache <$> cat (_xChart after)) = Some ["X"; "Y"].
Proof. eexists. repeat split. Qed.

End category_facts.

(* ------------------------------------------------------------------ *)
(** ** Element trees                                                   *)
(* ------------------------------------------------------------------ *)

Module etree_facts.
Import etree.

(** Induction on an element, with the property available for every
    child. *)
Lemma element_ind (P : element → Prop) :
  (∀ tg at_ tx cs, Forall P cs → P (Element tg at_ tx cs)) →
  ∀ e, P e.
Proof.
  intros HP. fix IH 1. intros [tg at_ tx cs]. apply HP.
  induction cs as [|c cs IHcs]; constructor; [apply IH|apply IHcs].
Qed.

Lemma findall_desc_unfold (tg : string) (e : element) :
  findall_desc tg e = findall_desc_from tg 0 (children e).
Proof.
  destruct e as [tg' at_ tx cs]. cbn [findall_desc children].
  generalize 0. induction cs as [|c cs IH]; intros k; [done|].
  cbn [findall_desc_from]. by rewrite <- IH.
Qed.

(** *** What the shape of a tree determines *)

Lemma shape_tag (e : element) : tag (shape e) = tag e.
Proof. by destruct e. Qed.

Lemma shape_attrib (e : element) : attrib (shape e) = attrib e.
Proof. by destruct e. Qed.

Lemma shape_children (e : element) : children (shape e) = shape <$> children e.
Proof. by destruct e. Qed.

Lemma shape_eq (e : element) :
  shape e = Element (tag e) (attrib e) None (shape <$> children e).
Proof. by destruct e. Qed.

Lemma shape_children_eq (e e' : element) :
  shape e = shape e' → shape <$> children e = shape <$> children e'.
Proof. intros H. by rewrite <- !shape_children, H. Qed.

Lemma get_shape (name : string) (e : element) : get name (shape e) = get name e.
Proof. unfold get. by rewrite shape_attrib. Qed.

Lemma tagged_from_shape (tg : string) (k : nat) (cs : list element) :
  tagged_from tg k (shape <$> cs) = tagged_from tg k cs.
Proof.
  revert k. induction cs as [|c cs IH]; intros k; [done|].
  rewrite fmap_cons. cbn [tagged_from]. by rewrite shape_tag, IH.
Qed.

Lemma findall_shape (tg : string) (e : element) : findall tg (shape e) = findall tg e.
Proof. unfold findall. by rewrite shape_children, tagged_from_shape. Qed.

Lemma find_shape (tg : string) (e : element) : find tg (shape e) = find tg e.
Proof. unfold find. by rewrite findall_shape. Qed.

Lemma findall_desc_shape (tg : string) (e : element) :
  findall_desc tg (shape e) = findall_desc tg e.
Proof.
  induction e as [tg' at_ tx cs IH] using element_ind.
  rewrite !findall_desc_unfold, shape_children. cbn [children].
  generalize 0. induction IH as [|c cs Hc _ IHcs]; intros k; [done|].
  rewrite fmap_cons. cbn [findall_desc_from]. by rewrite shape_tag, Hc, IHcs.
Qed.

Lemma get_at_shape (p : path) (e : element) :
  get_at p (shape e) = shape <$> get_at p e.
Proof.
  revert e. induction p as [|i p IH]; intros e; [done|].
  cbn [get_at]. rewrite shape_children, list_lookup_fmap.
  destruct (children e !! i) as [c|]; [apply IH|done].
Qed.

Lemma shape_valid (p : path) (e e' : element) :
  shape e = shape e' → is_Some (get_at p e) → is_Some (get_at p e').
Proof.
  intros Hs Hp. apply (fmap_is_Some shape) in Hp.
  rewrite <- get_at_shape, Hs, get_at_shape in Hp. by apply fmap_is_Some in Hp.
Qed.

(** *** Assigning texts leaves the shape alone *)

Lemma shape_set_text (v : option string) (e : element) : shape (set_text v e) = shape e.
Proof. by destruct e. Qed.

Lemma fmap_alter_invariant {A B} (h : A → B) (g : A → A) (i : nat) (l : list A) :
  (∀ x, h (g x) = h x) → h <$> alter g i l = h <$> l.
Proof.
  intros Hg. revert i. induction l as [|x l IH]; intros [|i]; simpl; [done..| |].
  - by rewrite Hg.
  - f_equal. apply IH.
Qed.

Lemma shape_alter_at (f : element → element) (p : path) (e : element) :
  (∀ c, shape (f c) = shape c) → shape (alter_at f p e) = shape e.
Proof.
  intros Hf. revert e. induction p as [|i p IH]; intros e; [apply Hf|].
  cbn [alter_at]. rewrite (shape_eq e). cbn [shape]. f_equal.
  change (map shape) with (fmap (M:=list) shape). by apply fmap_alter_invariant.
Qed.

Lemma shape_set_text_at (p : path) (v : option string) (e : element) :
  shape (set_text_at p v e) = shape e.
Proof. apply shape_alter_at. intros c. apply shape_set_text. Qed.

Lemma shape_assign (pvs : list (path * option string)) (e : element) :
  shape (assign pvs e) = shape e.
Proof.
  unfold assign. revert e. induction pvs as [|[p v] pvs IH]; intros e; [done|].
  cbn [foldl]. by rewrite IH, shape_set_text_at.
Qed.

(** *** Reading a text after an assignment *)

Lemma text_at_set_eq (p : path) (v : option string) (e : element) :
  is_Some (get_at p e) → text_at p (set_text_at p v e) = v.
Proof.
  unfold text_at, set_text_at. revert e.
  induction p as [|i p IH]; intros e Hp; [done|].
  cbn [alter_at get_at children] in *. rewrite list_lookup_alter_eq.
  destruct (children e !! i) as [c|]; [|by destruct Hp]. simpl. by apply IH.
Qed.

Lemma text_at_set_ne (p q : path) (v : option string) (e : element) :
  p ≠ q → text_at q (set_text_at p v e) = text_at q e.
Proof.
  unfold text_at, set_text_at. revert q e.
  induction p as [|i p IH]; intros q e Hne.
  - destruct q as [|j q]; [done|]. by destruct e.
  - destruct q as [|j q]; [done|]. cbn [alter_at get_at children].
    destruct (decide (i = j)) as [->|Hij].
    + rewrite list_lookup_alter_eq.
      destruct (children e !! j) as [c|]; [|done]. simpl. apply IH. congruence.
    + by rewrite list_lookup_alter_ne.
Qed.

Lemma text_at_assign_notin (pvs : list (path * option string)) (q : path) (e : element) :
  q ∉ pvs.*1 → text_at q (assign pvs e) = text_at q e.
Proof.
  unfold assign. revert e. induction pvs as [|[p v] pvs IH]; intros e Hq; [done|].
  rewrite fmap_cons in Hq. apply not_elem_of_cons in Hq as [Hne Hq].
  cbn [foldl]. rewrite IH by done. by apply text_at_set_ne.
Qed.

(** Assigning, position by position, the values [vs] to distinct
    elements [ps] of a tree overwrites the sequence of their texts with
    [vs]. *)
Lemma texts_assign_zip (ps : list path) (vs : list (option string)) (e : element) :
  NoDup ps →
  Forall (λ p, is_Some (get_at p e)) ps →
  (λ p, text_at p (assign (zip ps vs) e)) <$> ps
  = spec.overwrite vs ((λ p, text_at p e) <$> ps).
Proof.
  revert vs e. induction ps as [|p ps IH]; intros vs e Hnd Hvalid.
  - by destruct vs.
  - destruct vs as [|v vs]; [done|].
    apply NoDup_cons in Hnd as [Hp Hnd]. apply Forall_cons in Hvalid as [Hpv Hvalid].
    rewrite !fmap_cons. cbn [zip zip_with spec.overwrite].
    change (assign ((p, v) :: zip ps vs) e) with (assign (zip ps vs) (set_text_at p v e)).
    f_equal.
    + rewrite text_at_assign_notin, text_at_set_eq; [done..|].
      intros Hin. apply Hp. apply list_elem_of_fmap in Hin as ([p' v'] & -> & Hin).
      apply elem_of_zip_l in Hin. done.
    + rewrite IH; [|done|].
      * f_equal. apply list_fmap_ext. intros i q Hq.
        apply text_at_set_ne. intros Heq. apply Hp. rewrite Heq.
        by apply list_elem_of_lookup_2 in Hq.
      * eapply Forall_impl; [exact Hvalid|]. intros q.
        apply shape_valid. by rewrite shape_set_text_at.
Qed.


Lemma alter_at_fixed (f : element → element) (p : path) (e c : element) :
  get_at p e = Some c → f c = c → alter_at f p e = e.
Proof.
  revert e. induction p as [|i p IH]; intros e; cbn [alter_at get_at].
  - by intros [= ->].
  - destruct (children e !! i) as [c'|] eqn:Hc'; [|done]. intros Hc Hf.
    rewrite (list_alter_ext _ id _ (children e)); [| |done].
    + rewrite list_alter_id by done. by destruct e.
    + intros x Hx. rewrite Hc' in Hx. injection Hx as <-. by apply IH.
Qed.

(** *** The paths found by [findall_desc] *)

Lemma findall_desc_from_head (tg : string) (k : nat) (cs : list element) (p : path) :
  p ∈ findall_desc_from tg k cs → ∃ j p', p = j :: p' ∧ k ≤ j.
Proof.
  revert k. induction cs as [|c cs IH]; intros k; cbn [findall_desc_from].
  - by intros ?%elem_of_nil.
  - rewrite !elem_of_app. intros [Hp|[Hp|Hp]].
    + destruct (decide _); [|by apply elem_of_nil in Hp].
      apply list_elem_of_singleton in Hp as ->. by exists k, [].
    + apply list_elem_of_fmap in Hp as (p' & -> & _). by exists k, p'.
    + destruct (IH _ Hp) as (j & p' & -> & Hj). exists j, p'. split; [done|lia].
Qed.

Lemma findall_desc_not_nil (tg : string) (e : element) : [] ∉ findall_desc tg e.
Proof.
  rewrite findall_desc_unfold. intros H.
  by destruct (findall_desc_from_head _ _ _ _ H) as (j & p' & ? & _).
Qed.

Lemma findall_desc_valid (tg : string) (e : element) :
  Forall (λ p, is_Some (get_at p e)) (findall_desc tg e).
Proof.
  induction e as [tg' at_ tx cs IH] using element_ind.
  rewrite findall_desc_unfold. cbn [children].
  assert (Hgen : ∀ k pre, length pre = k →
            Forall (λ p, is_Some (get_at p (Element tg' at_ tx (pre ++ cs))))
                   (findall_desc_from tg k cs)); [|by apply (Hgen 0 [])].
  induction IH as [|c cs Hc _ IHcs]; intros k pre Hk; [constructor|].
  cbn [findall_desc_from]. rewrite !Forall_app. split_and!.
  - destruct (decide _); [|constructor]. apply Forall_singleton.
    cbn [get_at children]. rewrite lookup_app_r, Hk, Nat.sub_diag by lia. by eexists.
  - apply Forall_fmap. eapply Forall_impl; [exact Hc|]. intros p Hp. simpl.
    cbn [get_at children]. by rewrite lookup_app_r, Hk, Nat.sub_diag by lia.
  - specialize (IHcs (S k) (pre ++ [c])). rewrite <- app_assoc in IHcs.
    apply IHcs. rewrite length_app. simpl. lia.
Qed.

Lemma findall_desc_NoDup (tg : string) (e : element) : NoDup (findall_desc tg e).
Proof.
  induction e as [tg' at_ tx cs IH] using element_ind.
  rewrite findall_desc_unfold. cbn [children]. generalize 0.
  induction IH as [|c cs Hc _ IHcs]; intros k; [constructor|].
  cbn [findall_desc_from]. rewrite !NoDup_app. split_and!.
  - destruct (decide _); [apply NoDup_singleton|constructor].
  - intros p Hp. destruct (decide _); [|by apply elem_of_nil in Hp].
    apply list_elem_of_singleton in Hp as ->. rewrite elem_of_app. intros [Hin|Hin].
    + apply list_elem_of_fmap in Hin as (p' & [= <-] & Hin).
      by apply findall_desc_not_nil in Hin.
    + apply findall_desc_from_head in Hin as (j & p' & [= <- _] & Hj). lia.
  - apply NoDup_fmap_2; [|done]. intros p1 p2. congruence.
  - intros p Hp Hin. apply list_elem_of_fmap in Hp as (p' & -> & _).
    apply findall_desc_from_head in Hin as (j & p'' & [= <- _] & Hj). lia.
  - apply IHcs.
Qed.

End etree_facts.

(* ------------------------------------------------------------------ *)
(** ** Diagram points                                                  *)
(* ------------------------------------------------------------------ *)

Module oxml_diagram_facts.
Import etree etree_facts oxml_diagram.

Lemma t_shape (pt pt' : element) : shape pt = shape pt' → t pt = t pt'.
Proof. intros Hs. unfold t. by rewrite <- (find_shape _ pt), Hs, find_shape. Qed.

Lemma text_elements_shape (pt pt' : element) (t_pos : nat) :
  shape pt = shape pt' → text_elements pt t_pos = text_elements pt' t_pos.
Proof.
  intros Hs. apply shape_children_eq in Hs. unfold text_elements.
  apply (f_equal (λ l, l !! t_pos)) in Hs. rewrite !list_lookup_fmap in Hs.
  destruct (children pt !! t_pos) as [c|], (children pt' !! t_pos) as [c'|];
    try done.
  injection Hs as Hs. by rewrite <- (findall_desc_shape _ c), Hs, findall_desc_shape.
Qed.

Lemma text_elements_NoDup (pt : element) (t_pos : nat) : NoDup (text_elements pt t_pos).
Proof.
  unfold text_elements. destruct (children pt !! t_pos) as [c|]; [|constructor].
  apply NoDup_fmap_2; [|apply findall_desc_NoDup]. intros p1 p2. congruence.
Qed.

Lemma text_elements_valid (pt : element) (t_pos : nat) :
  Forall (λ p, is_Some (get_at p pt)) (text_elements pt t_pos).
Proof.
  unfold text_elements. destruct (children pt !! t_pos) as [c|] eqn:Hc; [|constructor].
  apply Forall_fmap. eapply Forall_impl; [apply findall_desc_valid|].
  intros p Hp. simpl. by rewrite Hc.
Qed.

(** The setter is a run of assignments: the value to the first run, the
    empty string to each of the others. *)
Lemma text_set_assign (value : string) (pt : element) (t_pos : nat) :
  t pt = Some t_pos →
  text_set value pt
  = assign (zip (text_elements pt t_pos)
                (Some value :: replicate (length (text_elements pt t_pos) - 1) (Some "")))
           pt.
Proof.
  intros Ht. unfold text_set. rewrite Ht.
  destruct (text_elements pt t_pos) as [|first rest]; [done|].
  cbn [length]. rewrite Nat.sub_succ, Nat.sub_0_r. cbn [zip zip_with].
  unfold assign. cbn [foldl]. generalize (set_text_at first (Some value) pt).
  induction rest as [|p rest IH]; intros e; [done|]. cbn. apply IH.
Qed.

Lemma shape_text_set (value : string) (pt : element) : shape (text_set value pt) = shape pt.
Proof.
  destruct (t pt) as [t_pos|] eqn:Ht.
  - rewrite (text_set_assign _ _ _ Ht). apply shape_assign.
  - unfold text_set. by rewrite Ht.
Qed.

Lemma text_get_runs (pt : element) :
  text_get pt = join (default "" <$> filter (λ o, spec.populated o) (spec.runs pt)).
Proof. unfold text_get, spec.runs. by destruct (t pt). Qed.

Lemma runs_text_set (value : string) (pt : element) :
  spec.runs pt ≠ [] →
  spec.runs (text_set value pt)
  = Some value :: replicate (length (spec.runs pt) - 1) (Some "").
Proof.
  unfold spec.runs. rewrite (t_shape _ _ (shape_text_set value pt)).
  destruct (t pt) as [t_pos|] eqn:Ht; [|done]. intros Hruns.
  rewrite (text_elements_shape _ _ _ (shape_text_set value pt)).
  rewrite (text_set_assign _ _ _ Ht).
  rewrite texts_assign_zip by auto using text_elements_NoDup, text_elements_valid.
  rewrite length_fmap. apply overwrite_same_length.
  rewrite length_fmap. destruct (text_elements pt t_pos); [done|].
  simpl. rewrite length_replicate. lia.
Qed.

Lemma filter_populated_cleared (n : nat) :
  filter (λ o, spec.populated o) (replicate n (Some "")) = [].
Proof.
  induction n as [|n IH]; [done|]. simpl. rewrite filter_cons_False; [done|].
  by compute.
Qed.

Lemma join_singleton (s : string) : join [s] = s.
Proof.
  unfold join. simpl. induction s as [|a s IH]; [done|].
  change (String a (s +:+ "") = String a s). by rewrite IH.
Qed.

Lemma populated_after_set (value : string) (n : nat) :
  filter (λ o, spec.populated o) (Some value :: replicate n (Some ""))
  = if decide (value = "") then [] else [Some value].
Proof.
  destruct (decide (value = "")) as [->|Hvalue].
  - rewrite filter_cons_False by (by compute). apply filter_populated_cleared.
  - rewrite filter_cons_True, filter_populated_cleared; [done|].
    unfold spec.populated, truthy_text. by apply bool_decide_pack.
Qed.

Lemma text_get_text_set (pt : element) (value : string) :
  spec.runs pt ≠ [] → text_get (text_set value pt) = value.
Proof.
  intros Hruns. rewrite text_get_runs, (runs_text_set value pt Hruns), populated_after_set.
  destruct (decide (value = "")) as [->|_]; [done|]. apply join_singleton.
Qed.

(** When the text container of a point holds at least one run, a
    write of [value] that lxml takes puts [value] into the first run and
    the empty string into every other run; the first run is then the
    only one that can be populated, and it is exactly when [value] is not
    empty; and reading the text afterwards gives [value]. *)
Lemma text_set_then_get (pt : element) (value : string) :
  spec.runs pt ≠ [] →
  spec.runs (text_set value pt)
  = Some value :: replicate (length (spec.runs pt) - 1) (Some "")
  ∧ length (filter (λ o, spec.populated o) (spec.runs (text_set value pt)))
    = (if decide (value = "") then 0 else 1)
  ∧ text_get (text_set value pt) = value.
Proof.
  intros Hruns. split_and!.
  - by apply runs_text_set.
  - rewrite (runs_text_set value pt Hruns), populated_after_set.
    by destruct (decide (value = "")).
  - by apply text_get_text_set.
Qed.

Example text_get_three_runs :
  text_get diagram_fixtures.pt_three_runs = "Hello big World".
Proof. reflexivity. Qed.

Example text_set_three_runs :
  text_set "X" diagram_fixtures.pt_three_runs
  = diagram_fixtures.dgm_pt [("modelId", "{test}")] [diagram_fixtures.dgm_t ["X"; ""; ""]].
Proof. reflexivity. Qed.

(** C8.  Setting the text of a point that has no text container changes
    nothing: the point after the call is the point before it, so it
    still has no text container, and its text reads as the empty
    string, before and after. *)
Theorem text_set_without_container (pt : element) (value : string) :
  t pt = None →
  text_set value pt = pt
  ∧ t (text_set value pt) = None
  ∧ text_get pt = ""
  ∧ text_get (text_set value pt) = "".
Proof.
  intros Ht. assert (Hset : text_set value pt = pt).
  { unfold text_set. by rewrite Ht. }
  rewrite Hset. unfold text_get. by rewrite Ht.
Qed.

Lemma text_set_without_container_witness :
  text_set "New Text" diagram_fixtures.pt_bare = diagram_fixtures.pt_bare
  ∧ t (text_set "New Text" diagram_fixtures.pt_bare) = None
  ∧ text_get diagram_fixtures.pt_bare = ""
  ∧ text_get (text_set "New Text" diagram_fixtures.pt_bare) = "".
Proof.
  apply (text_set_without_container diagram_fixtures.pt_bare "New Text"). reflexivity.
Defined.

(** A text container without runs: the setter changes nothing either,
    and the text stays empty. *)
Example text_set_without_runs :
  let pt := diagram_fixtures.dgm_pt [] [diagram_fixtures.dgm_t []] in
  text_set "New Text" pt = pt ∧ text_get pt = "".
Proof. split; reflexivity. Qed.

End oxml_diagram_facts.

(* ------------------------------------------------------------------ *)
(** ** The drawing part                                                *)
(* ------------------------------------------------------------------ *)

Module parts_diagram_facts.
Import etree etree_facts parts_diagram.

Lemma zip_nil_r {A B} (l : list A) : zip l ([] : list B) = [].
Proof. by destruct l. Qed.

(** The loop of [update_all_text_elements], entered with the counter at
    [k], assigns to the elements met the texts from position [k] on,
    for as long as there are any. *)
Lemma update_loop_assign (text_list : list string) (text_elements : list path)
    (k : nat) (root : element) :
  foldl (λ root '(idx, text_el),
           if decide (idx < length text_list)
           then set_text_at text_el (text_list !! idx) root
           else root)
        root (enumerate_from k text_elements)
  = assign (zip text_elements (Some <$> drop k text_list)) root.
Proof.
  revert k root. induction text_elements as [|p ps IH]; intros k root; [done|].
  cbn [enumerate_from foldl]. rewrite IH. destruct (decide (k < length text_list)) as [Hk|Hk].
  - destruct (lookup_lt_is_Some_2 text_list k Hk) as [s Hs].
    by rewrite (drop_S _ _ _ Hs), Hs.
  - rewrite !drop_ge by lia. by rewrite fmap_nil, !zip_nil_r.
Qed.

Lemma update_all_text_elements_assign (text_list : list string) (root : element) :
  update_all_text_elements text_list root
  = assign (zip (findall_desc (qn "a:t") root) (Some <$> text_list)) root.
Proof. unfold update_all_text_elements, enumerate. by rewrite update_loop_assign. Qed.

Lemma shape_update_all_text_elements (text_list : list string) (root : element) :
  shape (update_all_text_elements text_list root) = shape root.
Proof. rewrite update_all_text_elements_assign. apply shape_assign. Qed.

(** The cells of a drawing after [update_all_text_elements] are its
    cells before, overwritten position by position with the texts. *)
Lemma cells_update_all_text_elements (text_list : list string) (root : element) :
  spec.cells (update_all_text_elements text_list root)
  = spec.overwrite (Some <$> text_list) (spec.cells root).
Proof.
  unfold spec.cells.
  rewrite <- (findall_desc_shape _ (update_all_text_elements _ _)),
    shape_update_all_text_elements, findall_desc_shape.
  rewrite update_all_text_elements_assign.
  apply texts_assign_zip; [apply findall_desc_NoDup|apply findall_desc_valid].
Qed.

Example update_fewer_texts_than_cells :
  let drawing := diagram_fixtures.el "dsp:drawing"
                   [diagram_fixtures.a_r "one"; diagram_fixtures.a_r "two";
                    diagram_fixtures.a_r "three"] in
  spec.cells (update_all_text_elements ["1"; "2"] drawing)
  = [Some "1"; Some "2"; Some "three"].
Proof. reflexivity. Qed.

Example update_more_texts_than_cells :
  let drawing := diagram_fixtures.el "dsp:drawing"
                   [diagram_fixtures.a_r "one"; diagram_fixtures.a_r "two"] in
  spec.cells (update_all_text_elements ["1"; "2"; "3"] drawing)
  = [Some "1"; Some "2"].
Proof. reflexivity. Qed.

End parts_diagram_facts.

(* ------------------------------------------------------------------ *)
(** ** SmartArt                                                        *)
(* ------------------------------------------------------------------ *)

Module smartart_facts.
Import etree etree_facts parts_diagram parts_diagram_facts smartart.

(** *** The node collection *)

Lemma get_at_app (p q : path) (e : element) :
  get_at (p ++ q) e = get_at p e ≫= get_at q.
Proof.
  revert e. induction p as [|i p IH]; intros e; [done|].
  cbn [app get_at]. destruct (children e !! i); [apply IH|done].
Qed.

Lemma deref_child_ref (pkg : package) (r : element_ref) (i : nat) :
  deref pkg (child_ref r i) = deref pkg r ≫= λ e, children e !! i.
Proof.
  unfold deref, child_ref. cbn [ref_part ref_path]. rewrite get_at_app.
  destruct (get_at (ref_path r) _) as [e|]; [|done]. simpl.
  by destruct (children e !! i).
Qed.

Lemma tagged_from_valid (tg : string) (k : nat) (cs : list element) :
  Forall (λ i, k ≤ i ∧ is_Some (cs !! (i - k))) (tagged_from tg k cs).
Proof.
  revert k. induction cs as [|c cs IH]; intros k; [constructor|].
  cbn [tagged_from]. apply Forall_app. split.
  - destruct (decide _); [|constructor]. apply Forall_singleton.
    rewrite Nat.sub_diag. split; [done|by eexists].
  - eapply Forall_impl; [apply IH|]. intros i [Hi Hc]. split; [lia|].
    by replace (i - k) with (S (i - S k)) by lia.
Qed.

Lemma findall_valid (tg : string) (e : element) :
  Forall (λ i, is_Some (children e !! i)) (findall tg e).
Proof.
  eapply Forall_impl; [apply tagged_from_valid|]. intros i [_ Hi].
  by rewrite Nat.sub_0_r in Hi.
Qed.

Lemma nodes_iter_filter (pkg : package) (self : _SmartArtNodes) (ptLst_el : element) :
  deref pkg (nodes_element self) = Some ptLst_el →
  nodes_iter pkg self
  = (λ i, SmartArtNode_new (child_ref (nodes_element self) i) self)
      <$> filter (λ i, is_content_type (type_at ptLst_el i)) (oxml_diagram.iter_pts ptLst_el).
Proof.
  intros Hel. unfold nodes_iter. rewrite Hel. unfold oxml_diagram.iter_pts.
  induction (findall_valid (qn "dgm:pt") ptLst_el) as [|i is_ [pt Hpt] _ IH]; [done|].
  cbn [mbind list_bind]. rewrite IH. clear IH. unfold type_at at 2.
  rewrite Hpt. simpl. destruct (is_content_type (oxml_diagram.type pt)) eqn:Htype.
  - rewrite filter_cons_True; [done|]. unfold type_at. rewrite Hpt. simpl.
    by apply Is_true_true.
  - rewrite filter_cons_False; [done|]. unfold type_at. rewrite Hpt. simpl.
    by apply Is_true_false.
Qed.

Lemma sum_ones {A} (l : list A) : sum_list ((λ _, 1) <$> l) = length l.
Proof. induction l as [|x l IH]; [done|]. simpl in *. by f_equal. Qed.

(** C5.  Iterating a node collection yields, in document order, one node
    for each [dgm:pt] child of the point list whose type is none of
    "pres", "parTrans" and "sibTrans", and nothing else; no node yielded
    has one of these types; and the length of the collection is the
    number of nodes yielded. *)
Theorem nodes_iter_skips_metadata (pkg : package) (self : _SmartArtNodes)
    (ptLst_el : element) :
  deref pkg (nodes_element self) = Some ptLst_el →
  node_pt <$> nodes_iter pkg self
  = child_ref (nodes_element self)
      <$> filter (λ i, type_at ptLst_el i ∉ metadata_types) (oxml_diagram.iter_pts ptLst_el)
  ∧ Forall (λ node, node_type pkg node ∉ metadata_types) (nodes_iter pkg self)
  ∧ nodes_len pkg self = length (nodes_iter pkg self).
Proof.
  intros Hel. rewrite (nodes_iter_filter _ _ _ Hel).
  assert (Hfilter :
    filter (λ i, is_content_type (type_at ptLst_el i)) (oxml_diagram.iter_pts ptLst_el)
    = filter (λ i, type_at ptLst_el i ∉ metadata_types) (oxml_diagram.iter_pts ptLst_el)).
  { apply list_filter_iff. intros i. unfold is_content_type. apply bool_decide_spec. }
  rewrite Hfilter. split_and!.
  - rewrite <- list_fmap_compose. by apply list_fmap_ext.
  - apply Forall_fmap, Forall_forall. intros i [Hi _]%list_elem_of_filter.
    unfold node_type. simpl. rewrite deref_child_ref, Hel. exact Hi.
  - unfold nodes_len. rewrite (nodes_iter_filter _ _ _ Hel), Hfilter. apply sum_ones.
Qed.

Lemma nodes_iter_skips_metadata_witness :
  node_pt <$> nodes_iter diagram_fixtures.bare_pkg diagram_fixtures.bare_nodes
  = [ {| ref_part := 0; ref_path := [0] |}; {| ref_part := 0; ref_path := [4] |} ]
  ∧ Forall (λ node, node_type diagram_fixtures.bare_pkg node ∉ metadata_types)
      (nodes_iter diagram_fixtures.bare_pkg diagram_fixtures.bare_nodes)
  ∧ nodes_len diagram_fixtures.bare_pkg diagram_fixtures.bare_nodes
    = length (nodes_iter diagram_fixtures.bare_pkg diagram_fixtures.bare_nodes).
Proof.
  exact (nodes_iter_skips_metadata diagram_fixtures.bare_pkg diagram_fixtures.bare_nodes
           diagram_fixtures.ptLst_mixed eq_refl).
Defined.

Example bare_nodes_model_ids :
  model_id diagram_fixtures.bare_pkg
    <$> nodes_iter diagram_fixtures.bare_pkg diagram_fixtures.bare_nodes
  = [Some "{id1}"; Some "{id5}"]
  ∧ nodes_len diagram_fixtures.bare_pkg diagram_fixtures.bare_nodes = 2.
Proof. split; reflexivity. Qed.

Lemma nodes_iter_fields (pkg : package) (self : _SmartArtNodes) (node : SmartArtNode) :
  node ∈ nodes_iter pkg self →
  ref_part (node_pt node) = ref_part (nodes_element self)
  ∧ node_parent node = AOther :: nodes_parent self
  ∧ node_data_part node = nodes_data_part self.
Proof.
  unfold nodes_iter. destruct (deref pkg (nodes_element self)) as [ptLst_el|];
    [|by intros ?%elem_of_nil].
  intros (i & Hin & _)%list_elem_of_bind.
  destruct (children ptLst_el !! i) as [pt|]; [|by apply elem_of_nil in Hin].
  destruct (is_content_type _); [|by apply elem_of_nil in Hin].
  by apply list_elem_of_singleton in Hin as ->.
Qed.

(** *** What the operations read of the package *)

Lemma nodes_ext (pkg pkg' : package) (self : SmartArt) :
  shape (_element (pkg' (sa_data_part self))) = shape (_element (pkg (sa_data_part self))) →
  nodes pkg' self = nodes pkg self.
Proof.
  intros Hs. unfold nodes, oxml_diagram.ptLst, data_model.
  by rewrite <- (find_shape _ (_element (pkg' _))), Hs, find_shape.
Qed.

Lemma deref_ext (pkg pkg' : package) (r : element_ref) :
  _element (pkg' (ref_part r)) = _element (pkg (ref_part r)) →
  deref pkg' r = deref pkg r.
Proof. intros He. unfold deref. by rewrite He. Qed.

Lemma nodes_iter_ext (pkg pkg' : package) (self : _SmartArtNodes) :
  _element (pkg' (ref_part (nodes_element self)))
  = _element (pkg (ref_part (nodes_element self))) →
  nodes_iter pkg' self = nodes_iter pkg self.
Proof. intros He. unfold nodes_iter. by rewrite (deref_ext _ _ _ He). Qed.

Lemma node_text_ext (pkg pkg' : package) (node : SmartArtNode) :
  _element (pkg' (ref_part (node_pt node))) = _element (pkg (ref_part (node_pt node))) →
  node_text pkg' node = node_text pkg node.
Proof. intros He. unfold node_text. by rewrite (deref_ext _ _ _ He). Qed.

Lemma node_texts_ext (pkg pkg' : package) (self : SmartArt) :
  _element (pkg' (sa_data_part self)) = _element (pkg (sa_data_part self)) →
  spec.node_texts pkg' self = spec.node_texts pkg self.
Proof.
  intros He. unfold spec.node_texts. rewrite (nodes_ext pkg pkg') by by rewrite He.
  destruct (nodes pkg self) as [ns|] eqn:Hns; [|done]. cbn [mbind result_bind].
  assert (Hpart : ref_part (nodes_element ns) = sa_data_part self).
  { unfold nodes in Hns. destruct (oxml_diagram.ptLst _); [|done].
    by injection Hns as <-. }
  rewrite (nodes_iter_ext pkg pkg') by by rewrite Hpart.
  f_equal. apply list_fmap_ext. intros i node Hnode.
  apply list_elem_of_lookup_2, nodes_iter_fields in Hnode as (Href & _).
  apply node_text_ext. by rewrite Href, Hpart.
Qed.

(** *** The texts handed to the cache *)

Lemma bind_nonempty {A} (f : A → string) (l : list A) :
  (x ← l; let text := f x in if bool_decide (text ≠ "") then [text] else [])
  = filter (λ s, s ≠ "") (f <$> l).
Proof.
  induction l as [|x l IH]; [done|]. rewrite fmap_cons. cbn -[bool_decide filter] in *.
  rewrite IH. destruct (decide (f x ≠ "")) as [Hx|Hx].
  - rewrite bool_decide_true by done. by rewrite filter_cons_True.
  - rewrite bool_decide_false by done. by rewrite filter_cons_False.
Qed.

(** [text_content] is the complete sequence of node texts with the empty
    ones left out. *)
Lemma text_content_node_texts (pkg : package) (self : SmartArt) :
  text_content pkg self = filter (λ s, s ≠ "") <$> spec.node_texts pkg self.
Proof.
  unfold text_content, iter_text, spec.node_texts.
  destruct (nodes pkg self) as [ns|]; [|done]. cbn [mbind result_bind fmap].
  by rewrite bind_nonempty.
Qed.

(** *** Synchronising the drawing parts *)

Lemma sync_one_class (texts : list string) (pkg : package) (rel : _Relationship)
    (a : part_id) :
  part_class (sync_one texts pkg rel a) = part_class (pkg a).
Proof.
  unfold sync_one. destruct (decide _); [|done].
  destruct (decide (target_part rel = a)) as [->|Hne].
  - by rewrite fn_lookup_insert.
  - by rewrite fn_lookup_insert_ne.
Qed.

Lemma sync_one_other (texts : list string) (pkg : package) (rel : _Relationship)
    (a : part_id) :
  part_class (pkg a) ≠ DiagramDrawingPart → sync_one texts pkg rel a = pkg a.
Proof.
  intros Ha. unfold sync_one. destruct (decide _) as [Hd|]; [|done].
  rewrite fn_lookup_insert_ne; [done|]. intros Heq. by rewrite Heq in Hd.
Qed.

Lemma sync_one_cells (texts : list string) (pkg : package) (rel : _Relationship)
    (d : part_id) :
  part_class (pkg d) = DiagramDrawingPart →
  spec.cells (_element (sync_one texts pkg rel d))
  = if decide (target_part rel = d)
    then spec.overwrite (Some <$> texts) (spec.cells (_element (pkg d)))
    else spec.cells (_element (pkg d)).
Proof.
  intros Hd. unfold sync_one. destruct (decide (target_part rel = d)) as [->|Hne].
  - rewrite decide_True by done. rewrite fn_lookup_insert. cbn [_element].
    apply cells_update_all_text_elements.
  - destruct (decide _); [|done]. by rewrite fn_lookup_insert_ne.
Qed.

Lemma sync_all_class (texts : list string) (rels : list _Relationship) (pkg : package)
    (a : part_id) :
  part_class (foldl (sync_one texts) pkg rels a) = part_class (pkg a).
Proof.
  revert pkg. induction rels as [|rel rels IH]; intros pkg; [done|].
  cbn [foldl]. by rewrite IH, sync_one_class.
Qed.

(** Parts that are not drawing parts are left as they are. *)
Lemma sync_all_other (texts : list string) (rels : list _Relationship) (pkg : package)
    (a : part_id) :
  part_class (pkg a) ≠ DiagramDrawingPart → foldl (sync_one texts) pkg rels a = pkg a.
Proof.
  revert pkg. induction rels as [|rel rels IH]; intros pkg Ha; [done|].
  cbn [foldl]. rewrite IH by by rewrite sync_one_class. by apply sync_one_other.
Qed.

(** A drawing part among the targets has its cells overwritten with the
    texts, however many relationships lead to it; any other drawing part
    keeps its cells. *)
Lemma sync_all_cells (texts : list string) (rels : list _Relationship) (pkg : package)
    (d : part_id) :
  part_class (pkg d) = DiagramDrawingPart →
  spec.cells (_element (foldl (sync_one texts) pkg rels d))
  = if decide (d ∈ target_part <$> rels)
    then spec.overwrite (Some <$> texts) (spec.cells (_element (pkg d)))
    else spec.cells (_element (pkg d)).
Proof.
  revert pkg. induction rels as [|rel rels IH]; intros pkg Hd.
  - rewrite decide_False; [done|]. by intros ?%elem_of_nil.
  - cbn [foldl]. rewrite IH by by rewrite sync_one_class.
    rewrite sync_one_cells by done. rewrite fmap_cons.
    destruct (decide (target_part rel = d)) as [Heq|Hne].
    + rewrite (decide_True (P := d ∈ _ :: _)) by (rewrite Heq; left).
      destruct (decide _); [apply overwrite_idemp|done].
    + destruct (decide (d ∈ target_part <$> rels)) as [Hin|Hin].
      * rewrite decide_True; [done|]. by right.
      * rewrite decide_False; [done|]. intros [?|?]%elem_of_cons; congruence.
Qed.

(** *** Writing the text of a point *)

Lemma write_pt_text_class (r : element_ref) (value : string) (pkg : package) (a : part_id) :
  part_class (write_pt_text r value pkg a) = part_class (pkg a).
Proof.
  unfold write_pt_text. destruct (decide (ref_part r = a)) as [->|Hne].
  - by rewrite fn_lookup_insert.
  - by rewrite fn_lookup_insert_ne.
Qed.

Lemma write_pt_text_rels (r : element_ref) (value : string) (pkg : package) (a : part_id) :
  rels (write_pt_text r value pkg a) = rels (pkg a).
Proof.
  unfold write_pt_text. destruct (decide (ref_part r = a)) as [->|Hne].
  - by rewrite fn_lookup_insert.
  - by rewrite fn_lookup_insert_ne.
Qed.

Lemma write_pt_text_other (r : element_ref) (value : string) (pkg : package) (a : part_id) :
  ref_part r ≠ a → write_pt_text r value pkg a = pkg a.
Proof. intros Hne. unfold write_pt_text. by rewrite fn_lookup_insert_ne. Qed.

Lemma write_pt_text_shape (r : element_ref) (value : string) (pkg : package) (a : part_id) :
  shape (_element (write_pt_text r value pkg a)) = shape (_element (pkg a)).
Proof.
  unfold write_pt_text. destruct (decide (ref_part r = a)) as [->|Hne].
  - rewrite fn_lookup_insert. cbn [_element]. apply shape_alter_at.
    apply oxml_diagram_facts.shape_text_set.
  - by rewrite fn_lookup_insert_ne.
Qed.

(** *** The synchronisation as a whole *)

Lemma node_texts_nodes (pkg : package) (self : SmartArt) (ns : _SmartArtNodes) :
  nodes pkg self = Ok ns →
  spec.node_texts pkg self = Ok (node_text pkg <$> nodes_iter pkg ns).
Proof. intros Hns. unfold spec.node_texts. by rewrite Hns. Qed.

Lemma text_content_nodes (pkg : package) (self : SmartArt) (ns : _SmartArtNodes) :
  nodes pkg self = Ok ns →
  text_content pkg self
  = Ok (filter (λ s, s ≠ "") (node_text pkg <$> nodes_iter pkg ns)).
Proof.
  intros Hns. by rewrite text_content_node_texts, (node_texts_nodes _ _ _ Hns).
Qed.

(** When the chain of parents of a SmartArt leads to a part, the call
    succeeds and runs [update_all_text_elements], with the non-empty
    node texts, on the drawing parts targeted from there. *)
Lemma sync_drawing_part_run (pkg : package) (self : SmartArt) (ns : _SmartArtNodes)
    (slide : part_id) :
  nodes pkg self = Ok ns →
  slide_part_of self = Some slide →
  _sync_drawing_part self pkg
  = (Ok (),
     foldl (sync_one (filter (λ s, s ≠ "") (node_text pkg <$> nodes_iter pkg ns)))
           pkg (drawing_rels_of (pkg slide))).
Proof.
  intros Hns Hslide. unfold _sync_drawing_part.
  rewrite Hslide, (text_content_nodes _ _ _ Hns).
  by destruct (drawing_rels_of (pkg slide)).
Qed.



(** The document point has no text, so the texts handed to the cache
    start with the text of the next node. *)
Example fixture_texts :
  spec.node_texts diagram_fixtures.pkg diagram_fixtures.sa = Ok [""; "one"; "two"]
  ∧ text_content diagram_fixtures.pkg diagram_fixtures.sa = Ok ["one"; "two"].
Proof. split; reflexivity. Qed.

(** *** Setting the text of a node *)

Lemma first_SmartArt_of_node (pkg : package) (sa : SmartArt) (ns : _SmartArtNodes)
    (node : SmartArtNode) :
  nodes pkg sa = Ok ns →
  node ∈ nodes_iter pkg ns →
  ref_part (node_pt node) = sa_data_part sa
  ∧ first_SmartArt (node_parent node) = Some sa
  ∧ node_data_part node = Some (sa_data_part sa).
Proof.
  intros Hns (Href & Hparent & Hpart)%nodes_iter_fields.
  unfold nodes in Hns. destruct (oxml_diagram.ptLst _); [|done].
  injection Hns as <-. cbn in *. by rewrite Hparent.
Qed.

Lemma sync_drawing_part_other (self : SmartArt) (pkg : package) (a : part_id) :
  part_class (pkg a) ≠ DiagramDrawingPart →
  (_sync_drawing_part self pkg).2 a = pkg a.
Proof.
  intros Ha. unfold _sync_drawing_part.
  destruct (slide_part_of self) as [slide|]; [|done].
  destruct (drawing_rels_of (pkg slide)) as [|rel rels]; [done|].
  destruct (text_content pkg self) as [texts|]; [|done].
  cbn [snd]. by apply sync_all_other.
Qed.

(** Setting the text of a node touches no part but the part of its point
    and the drawing parts. *)
Lemma node_text_set_other (node : SmartArtNode) (value : string) (pkg : package)
    (a : part_id) :
  part_class (pkg a) ≠ DiagramDrawingPart →
  ref_part (node_pt node) ≠ a →
  (node_text_set node value pkg).2 a = pkg a.
Proof.
  intros Hclass Hne. unfold node_text_set.
  assert (Hwrite : write_pt_text (node_pt node) value pkg a = pkg a)
    by by apply write_pt_text_other.
  destruct (node_data_part node); [|done].
  destruct (first_SmartArt (node_parent node)); [|done].
  rewrite sync_drawing_part_other; [done|]. by rewrite write_pt_text_class.
Qed.

(** On a node whose point has no text container, the setter leaves the
    part of the point exactly as it was. *)
Lemma node_text_set_without_container (node : SmartArtNode) (value : string)
    (pkg : package) (pt : element) :
  part_class (pkg (ref_part (node_pt node))) ≠ DiagramDrawingPart →
  deref pkg (node_pt node) = Some pt →
  oxml_diagram.t pt = None →
  (node_text_set node value pkg).2 (ref_part (node_pt node)) = pkg (ref_part (node_pt node))
  ∧ node_text (node_text_set node value pkg).2 node = "".
Proof.
  intros Hclass Hpt Ht.
  assert (Hwrite : write_pt_text (node_pt node) value pkg (ref_part (node_pt node))
                   = pkg (ref_part (node_pt node))).
  { unfold write_pt_text. rewrite fn_lookup_insert.
    rewrite (alter_at_fixed _ _ _ pt Hpt).
    - by destruct (pkg (ref_part (node_pt node))).
    - unfold oxml_diagram.text_set. by rewrite Ht. }
  assert (Hstate : (node_text_set node value pkg).2 (ref_part (node_pt node))
                   = pkg (ref_part (node_pt node))).
  { unfold node_text_set. destruct (node_data_part node); [|done].
    destruct (first_SmartArt (node_parent node)); [|done].
    rewrite sync_drawing_part_other; [done|]. by rewrite write_pt_text_class. }
  split; [done|]. rewrite (node_text_ext pkg) by by rewrite Hstate.
  unfold node_text, oxml_diagram.text_get. by rewrite Hpt, Ht.
Qed.


Example fixture_node_text_after_set :
  node_text (node_text_set diagram_fixtures.node_n2 "2" diagram_fixtures.pkg).2
    diagram_fixtures.node_n2 = "2".
Proof. reflexivity. Qed.

Example fixture_after_node_text_set :
  let pkg' := (node_text_set diagram_fixtures.node_n2 "2" diagram_fixtures.pkg).2 in
  spec.node_texts pkg' diagram_fixtures.sa = Ok [""; "one"; "2"]
  ∧ spec.cells (_element (pkg' 2)) = [Some "one"; Some "2"].
Proof. split; reflexivity. Qed.

(** After a write that lxml takes, to a node of a SmartArt whose parents
    lead to a part, every drawing part that this part targets by a
    relationship of the diagram-drawing type has its cells overwritten,
    position by position, with the current texts of the nodes of the
    collection that are not empty. *)
Lemma node_text_set_syncs_cache (pkg : package) (sa : SmartArt) (ns : _SmartArtNodes)
    (node : SmartArtNode) (k : nat) (value : string) (slide : part_id)
    (rel : _Relationship) (j : nat) :
  part_class (pkg (sa_data_part sa)) = DiagramDataPart →
  nodes pkg sa = Ok ns →
  nodes_iter pkg ns !! k = Some node →
  slide_part_of sa = Some slide →
  drawing_rels_of (pkg slide) !! j = Some rel →
  part_class (pkg (target_part rel)) = DiagramDrawingPart →
  ∃ (pkg' : package) (all_texts : list string),
    node_text_set node value pkg = (Ok (), pkg')
    ∧ spec.node_texts pkg' sa = Ok all_texts
    ∧ spec.cells (_element (pkg' (target_part rel)))
      = spec.overwrite (Some <$> filter (λ s, s ≠ "") all_texts)
          (spec.cells (_element (pkg (target_part rel)))).
Proof.
  intros Hdata Hns Hnode Hslide Hrel Hdrawing.
  apply list_elem_of_lookup_2 in Hnode, Hrel.
  destruct (first_SmartArt_of_node _ _ _ _ Hns Hnode) as (Href & Hfirst & Hpart).
  set (pkg1 := write_pt_text (node_pt node) value pkg).
  assert (Hns1 : nodes pkg1 sa = Ok ns).
  { rewrite <- Hns. apply nodes_ext, write_pt_text_shape. }
  assert (Hrels1 : drawing_rels_of (pkg1 slide) = drawing_rels_of (pkg slide)).
  { unfold drawing_rels_of, pkg1. by rewrite write_pt_text_rels. }
  set (all_texts := node_text pkg1 <$> nodes_iter pkg1 ns).
  set (texts := filter (λ s, s ≠ "") all_texts).
  set (pkg' := foldl (sync_one texts) pkg1 (drawing_rels_of (pkg slide))).
  exists pkg', all_texts. split_and!.
  - unfold node_text_set. fold pkg1. rewrite Hpart, Hfirst.
    by rewrite (sync_drawing_part_run _ _ _ _ Hns1 Hslide), Hrels1.
  - trans (spec.node_texts pkg1 sa); [|by apply node_texts_nodes].
    apply node_texts_ext. unfold pkg'. rewrite sync_all_other; [done|].
    unfold pkg1. rewrite write_pt_text_class, Hdata. discriminate.
  - unfold pkg'. rewrite sync_all_cells.
    + rewrite decide_True by by apply list_elem_of_fmap_2.
      unfold pkg1. rewrite write_pt_text_other; [done|].
      rewrite Href. intros Heq. rewrite Heq, Hdrawing in Hdata. discriminate.
    + unfold pkg1. by rewrite write_pt_text_class.
Qed.

End smartart_facts.

(* ================================================================== *)
(** * Part III: further properties of the same code                    *)
(* ================================================================== *)

(* ------------------------------------------------------------------ *)
(** ** Chart categories, continued                                     *)
(* ------------------------------------------------------------------ *)

Module category_more.
Import category category_facts.

Lemma ancestors_length_le (n : nat) (higher : list CT_Lvl) :
  length (spec.ancestors n higher) ≤ length higher.
Proof.
  induction higher as [|lvl higher IH]; [done|]. cbn [spec.ancestors].
  destruct (spec.parent_in n (pt_lst lvl)); simpl; lia.
Qed.

Lemma ancestors_length_full (n : nat) (higher : list CT_Lvl) :
  Forall (λ lvl, pt_lst lvl ≠ []) higher →
  length (spec.ancestors n higher) = length higher.
Proof.
  induction 1 as [|lvl higher Hlvl _ IH]; [done|]. cbn [spec.ancestors].
  unfold spec.parent_in. destruct (pt_lst lvl); [done|]. simpl. by rewrite IH.
Qed.

Lemma label_of_pt (pt : c_pt) : label (Category_pt pt) = py_str (pt_v_text pt).
Proof. done. Qed.

Lemma labels_of_chain (leaf : c_pt) (anc : list c_pt) :
  label <$> reverse (Category_pt leaf :: (Category_pt <$> anc))
  = reverse ((λ p, py_str (pt_v_text p)) <$> anc) ++ [py_str (pt_v_text leaf)].
Proof.
  rewrite reverse_cons, fmap_app, fmap_reverse, <- list_fmap_compose. done.
Qed.

Lemma flattened_labels_multi_level (self : Categories) (c : CT_AxDataSource)
    (ref : CT_MultiLvlStrRef) (leaf_level : CT_Lvl) (higher : list CT_Lvl) :
  cat (_xChart self) = Some c →
  multiLvlStrRef c = Some ref →
  lvl_lst ref = leaf_level :: higher →
  flattened_labels self
  = Ok ((λ leaf, reverse ((λ p, py_str (pt_v_text p))
                            <$> spec.ancestors (pt_idx leaf) higher)
                   ++ [py_str (pt_v_text leaf)])
          <$> pt_lst leaf_level).
Proof.
  intros Hcat Href Hlvls. unfold flattened_labels. rewrite Hcat, Href.
  rewrite (iter_flattened_categories_chains self c leaf_level higher Hcat).
  - cbn [mbind result_bind]. f_equal. rewrite <- list_fmap_compose.
    apply list_fmap_ext. intros i leaf _. apply labels_of_chain.
  - unfold lvls. by rewrite Href.
Qed.

(** X1.  For a collection with a multi-level reference, [flattened_labels]
    returns, without raising, one tuple per entry of the leaf level, in
    the order of that level: the labels of the ancestors of the entry,
    outermost first, followed by the label of the entry itself.  The
    label of an entry is the text of its [c:v], and the string [None]
    when that [c:v] is empty. *)
Theorem flattened_labels_hierarchical (self : Categories) (c : CT_AxDataSource)
    (ref : CT_MultiLvlStrRef) (leaf_level : CT_Lvl) (higher : list CT_Lvl) :
  cat (_xChart self) = Some c →
  multiLvlStrRef c = Some ref →
  lvl_lst ref = leaf_level :: higher →
  flattened_labels self
  = Ok ((λ leaf, reverse ((λ p, py_str (pt_v_text p))
                            <$> spec.ancestors (pt_idx leaf) higher)
                   ++ [py_str (pt_v_text leaf)])
          <$> pt_lst leaf_level).
Proof. apply flattened_labels_multi_level. Qed.

Lemma flattened_labels_hierarchical_witness :
  flattened_labels fixtures.empty_v_levels
  = Ok [["X"; "None"; "a"]; ["X"; "None"; "None"]; ["Y"; "Q"; "c"]].
Proof.
  exact (flattened_labels_hierarchical fixtures.empty_v_levels _ _ _ _
           eq_refl eq_refl eq_refl).
Defined.

Lemma enumerate_from_fmap {A B} (f : nat → A → B) (g : A → B) (k : nat) (l : list A) :
  (∀ i x, f i x = g x) → (λ '(i, x), f i x) <$> enumerate_from k l = g <$> l.
Proof.
  intros Hfg. revert k. induction l as [|x l IH]; intros k; [done|].
  cbn [enumerate_from]. rewrite !fmap_cons, IH. by rewrite Hfg.
Qed.

Lemma flattened_labels_flat_reference (self : Categories) (c : CT_AxDataSource) :
  cat (_xChart self) = Some c →
  multiLvlStrRef c = None →
  flattened_labels self
  = Ok ((λ o, [match o with
               | Some pt => py_str (pt_v_text pt)
               | None => ""
               end]) <$> cat_pts (_xChart self)).
Proof.
  intros Hcat Href. unfold flattened_labels, Categories_iter, enumerate.
  rewrite Hcat, Href. f_equal. rewrite <- list_fmap_compose.
  rewrite <- (enumerate_from_fmap
                (λ i o, [label (Category_new o (Some i))])
                (λ o, [match o with
                       | Some pt => py_str (pt_v_text pt)
                       | None => ""
                       end]) 0).
  - apply list_fmap_ext. by intros i [j o] _.
  - by intros i [pt|].
Qed.

(** X2.  For a collection with a flat reference, [flattened_labels]
    returns one singleton tuple per category position, in order: for a
    position that stores a [c:pt], the text of its [c:v], or the string
    [None] when that [c:v] is empty; the empty string for a position
    that stores no [c:pt]. *)
Theorem flattened_labels_flat (self : Categories) (c : CT_AxDataSource) :
  cat (_xChart self) = Some c →
  multiLvlStrRef c = None →
  flattened_labels self
  = Ok ((λ o, [match o with
               | Some pt => py_str (pt_v_text pt)
               | None => ""
               end]) <$> cat_pts (_xChart self)).
Proof. apply flattened_labels_flat_reference. Qed.

Lemma flattened_labels_flat_witness :
  flattened_labels fixtures.flat_with_gaps = Ok [["x"]; [""]; ["None"]; ["z"]].
Proof.
  exact (flattened_labels_flat fixtures.flat_with_gaps _ eq_refl eq_refl).
Defined.

(** X3.  [flattened_labels] never raises, and every tuple it returns has
    at least one label and at most [depth] labels. *)
Theorem flattened_labels_never_raises (self : Categories) :
  ∃ tuples, flattened_labels self = Ok tuples
            ∧ Forall (λ t, 1 ≤ length t ≤ depth self) tuples.
Proof.
  destruct (cat (_xChart self)) as [c|] eqn:Hcat.
  - destruct (multiLvlStrRef c) as [ref|] eqn:Href.
    + destruct (lvl_lst ref) as [|leaf_level higher] eqn:Hlvls.
      * exists []. split; [|constructor].
        unfold flattened_labels, _iter_flattened_categories, levels, lvls.
        by rewrite Hcat, Href, Hlvls.
      * eexists. split; [by apply (flattened_labels_multi_level _ c ref leaf_level higher)|].
        apply Forall_fmap, Forall_forall. intros leaf _. simpl.
        rewrite length_app, length_reverse, length_fmap. simpl.
        pose proof (ancestors_length_le (pt_idx leaf) higher).
        unfold depth, lvls. rewrite Hcat, Href, Hlvls. simpl. lia.
    + eexists. split; [by apply (flattened_labels_flat_reference _ c)|].
      apply Forall_fmap, Forall_forall. intros o _. simpl.
      unfold depth. rewrite Hcat, Href. lia.
  - exists []. split; [|constructor]. unfold flattened_labels. by rewrite Hcat.
Qed.

(** X4.  When no level above the leaf level is empty, every tuple of
    [flattened_labels] has exactly [depth] labels. *)
Theorem flattened_labels_full_depth (self : Categories) (c : CT_AxDataSource)
    (ref : CT_MultiLvlStrRef) (tuples : list (list string)) :
  cat (_xChart self) = Some c →
  multiLvlStrRef c = Some ref →
  Forall (λ lvl, pt_lst lvl ≠ []) (tail (lvl_lst ref)) →
  flattened_labels self = Ok tuples →
  Forall (λ t, length t = depth self) tuples.
Proof.
  intros Hcat Href Hfull. destruct (lvl_lst ref) as [|leaf_level higher] eqn:Hlvls.
  - unfold flattened_labels, _iter_flattened_categories, levels, lvls.
    rewrite Hcat, Href, Hlvls. intros [= <-]. constructor.
  - rewrite (flattened_labels_multi_level _ c ref leaf_level higher) by done.
    intros [= <-]. apply Forall_fmap, Forall_forall. intros leaf _. simpl.
    rewrite length_app, length_reverse, length_fmap. simpl.
    rewrite (ancestors_length_full _ _ Hfull).
    unfold depth, lvls. rewrite Hcat, Href, Hlvls. simpl. lia.
Qed.

Lemma flattened_labels_full_depth_witness :
  Forall (λ t, length t = depth fixtures.three_levels)
    [["X"; "P"; "a"]; ["X"; "P"; "b"]; ["X"; "Q"; "c"]; ["Y"; "Q"; "d"]].
Proof.
  apply (flattened_labels_full_depth fixtures.three_levels _ _ _ eq_refl eq_refl).
  - repeat constructor; discriminate.
  - reflexivity.
Defined.

Lemma enumerate_from_lookup {A} (k i : nat) (l : list A) :
  enumerate_from k l !! i = (λ x, (k + i, x)) <$> l !! i.
Proof.
  revert k i. induction l as [|x l IH]; intros k [|i]; simpl; [done..| |].
  - by rewrite Nat.add_0_r.
  - rewrite IH. by replace (S k + i) with (k + S i) by lia.
Qed.

Lemma length_enumerate_from {A} (k : nat) (l : list A) :
  length (enumerate_from k l) = length l.
Proof. revert k. induction l as [|x l IH]; intros k; [done|]. simpl. by rewrite IH. Qed.

(** X5.  Iterating the collection yields one category per position of
    [cat_pts].  Where a [c:pt] is stored, the category has its [idx] and,
    as label, the text of its [c:v], or the string [None] when that
    [c:v] is empty; where none is stored, the category is a placeholder
    with the empty label and the position as [idx]. *)
Theorem iter_materialises_placeholders (self : Categories) (i : nat) (o : option c_pt) :
  cat_pts (_xChart self) !! i = Some o →
  ∃ category,
    Categories_iter self !! i = Some category
    ∧ label category = match o with
                       | Some pt => py_str (pt_v_text pt)
                       | None => ""
                       end
    ∧ idx category = Some (default i (pt_idx <$> o))
    ∧ length (Categories_iter self) = length (cat_pts (_xChart self)).
Proof.
  intros Ho. exists (Category_new o (Some i)). split_and!.
  - unfold Categories_iter, enumerate. by rewrite list_lookup_fmap, enumerate_from_lookup, Ho.
  - by destruct o.
  - by destruct o.
  - unfold Categories_iter, enumerate. by rewrite length_fmap, length_enumerate_from.
Qed.

Lemma iter_materialises_placeholders_witness :
  (∃ category,
     Categories_iter fixtures.flat_with_gaps !! 1 = Some category
     ∧ label category = ""
     ∧ idx category = Some 1
     ∧ length (Categories_iter fixtures.flat_with_gaps) = 4)
  ∧ (∃ category,
       Categories_iter fixtures.flat_with_gaps !! 2 = Some category
       ∧ label category = "None"
       ∧ idx category = Some 2
       ∧ length (Categories_iter fixtures.flat_with_gaps) = 4).
Proof.
  split.
  - exact (iter_materialises_placeholders fixtures.flat_with_gaps 1 None eq_refl).
  - exact (iter_materialises_placeholders fixtures.flat_with_gaps 2
             (Some (fixtures.pt_empty_v 2)) eq_refl).
Defined.

Lemma parentage_one_level (leaf : c_pt) (lvl : CT_Lvl) (p : c_pt) :
  _parentage [Category_pt leaf] [Build_CategoryLevel lvl]
  = Ok [Category_pt leaf; Category_pt p] →
  spec.parent_in (pt_idx leaf) (pt_lst lvl) = Some p.
Proof.
  pose proof (parentage_chain (pt_idx leaf) [lvl] (Category_pt leaf) [] eq_refl) as Hchain.
  cbn [fmap list_fmap] in Hchain. rewrite Hchain. cbn [spec.ancestors app].
  destruct (spec.parent_in (pt_idx leaf) (pt_lst lvl)) as [q|]; [|done].
  by intros [= ->].
Qed.

Lemma parentage_one_level_Ok (leaf : c_pt) (lvl : CT_Lvl) (p : c_pt) :
  spec.parent_in (pt_idx leaf) (pt_lst lvl) = Some p →
  _parentage [Category_pt leaf] [Build_CategoryLevel lvl]
  = Ok [Category_pt leaf; Category_pt p].
Proof.
  intros Hp.
  pose proof (parentage_chain (pt_idx leaf) [lvl] (Category_pt leaf) [] eq_refl) as Hchain.
  cbn [fmap list_fmap] in Hchain. rewrite Hchain. cbn [spec.ancestors app].
  by rewrite Hp.
Qed.

(** X6.  In a level whose indices do not decrease and whose first index
    does not exceed the index of the leaf, the parent [_parentage] appends
    is an entry of the level with the largest index not exceeding that of
    the leaf, as the docstring of [_parentage] says. *)
Theorem parent_has_greatest_index (leaf first : c_pt) (lvl : CT_Lvl) :
  StronglySorted (λ a b, pt_idx a ≤ pt_idx b) (pt_lst lvl) →
  head (pt_lst lvl) = Some first →
  pt_idx first ≤ pt_idx leaf →
  ∃ p,
    _parentage [Category_pt leaf] [Build_CategoryLevel lvl]
    = Ok [Category_pt leaf; Category_pt p]
    ∧ p ∈ pt_lst lvl
    ∧ pt_idx p ≤ pt_idx leaf
    ∧ ∀ e, e ∈ pt_lst lvl → pt_idx e ≤ pt_idx leaf → pt_idx e ≤ pt_idx p.
Proof.
  intros Hsorted Hhead Hfirst.
  destruct (spec.parent_in (pt_idx leaf) (pt_lst lvl)) as [p|] eqn:Hp.
  - exists p. split; [by apply parentage_one_level_Ok|].
    by apply (parent_in_greatest _ _ first).
  - unfold spec.parent_in in Hp. by destruct (pt_lst lvl).
Qed.

Lemma parent_has_greatest_index_witness :
  let lvl := fixtures.lvl [fixtures.pt 0 "A"; fixtures.pt 2 "B"; fixtures.pt 5 "C"] in
  let leaf := fixtures.pt 4 "e" in
  ∃ p,
    _parentage [Category_pt leaf] [Build_CategoryLevel lvl]
    = Ok [Category_pt leaf; Category_pt p]
    ∧ p ∈ pt_lst lvl
    ∧ pt_idx p ≤ pt_idx leaf
    ∧ ∀ e, e ∈ pt_lst lvl → pt_idx e ≤ pt_idx leaf → pt_idx e ≤ pt_idx p.
Proof.
  apply (parent_has_greatest_index (fixtures.pt 4 "e") (fixtures.pt 0 "A")
           (fixtures.lvl [fixtures.pt 0 "A"; fixtures.pt 2 "B"; fixtures.pt 5 "C"])).
  - repeat constructor; simpl; lia.
  - reflexivity.
  - simpl. lia.
Defined.

Lemma last_elem_of {A} (l : list A) (x : A) : last l = Some x → x ∈ l.
Proof. intros (l' & ->)%last_Some. apply elem_of_app. right. left. Qed.

Lemma take_while_subseteq {A} (f : A → bool) (l : list A) (x : A) :
  x ∈ take_while f l → x ∈ l.
Proof.
  induction l as [|y l IH]; [done|]. cbn [take_while]. destruct (f y).
  - intros [->|Hx]%elem_of_cons; [left|right; by apply IH].
  - by intros ?%elem_of_nil.
Qed.

Lemma parent_in_elem_of (n : nat) (level : list c_pt) (p : c_pt) :
  spec.parent_in n level = Some p → p ∈ level.
Proof.
  unfold spec.parent_in. destruct level as [|first rest]; [done|].
  generalize (take_while_subseteq (λ e, bool_decide (pt_idx e ≤ n)) (first :: rest)).
  generalize (take_while (λ e, bool_decide (pt_idx e ≤ n)) (first :: rest)).
  intros tw Htw [= <-]. destruct (last tw) as [q|] eqn:Hlast; simpl; [|left].
  by apply Htw, last_elem_of.
Qed.

(** X7.  In a level whose indices do not decrease, parents follow the
    order of the leaves: a leaf with a larger index never gets a parent
    with a smaller index, so the leaves under one parent are
    contiguous. *)
Theorem parents_follow_leaf_order (leaf1 leaf2 p1 p2 : c_pt) (lvl : CT_Lvl) :
  StronglySorted (λ a b, pt_idx a ≤ pt_idx b) (pt_lst lvl) →
  pt_idx leaf1 ≤ pt_idx leaf2 →
  _parentage [Category_pt leaf1] [Build_CategoryLevel lvl]
  = Ok [Category_pt leaf1; Category_pt p1] →
  _parentage [Category_pt leaf2] [Build_CategoryLevel lvl]
  = Ok [Category_pt leaf2; Category_pt p2] →
  pt_idx p1 ≤ pt_idx p2.
Proof.
  intros Hsorted Hle Hp1%parentage_one_level Hp2%parentage_one_level.
  destruct (pt_lst lvl) as [|first rest] eqn:Hlvl; [done|].
  assert (Hfirst : ∀ e, e ∈ first :: rest → pt_idx first ≤ pt_idx e).
  { intros e [->|He]%elem_of_cons; [done|].
    apply StronglySorted_inv in Hsorted as [_ Hall].
    rewrite Forall_forall in Hall. by apply Hall. }
  destruct (decide (pt_idx first ≤ pt_idx leaf1)) as [Hcov|Hcov].
  - destruct (parent_in_greatest _ _ first _ Hsorted eq_refl Hcov Hp1) as (Hin1 & Hle1 & _).
    destruct (parent_in_greatest (pt_idx leaf2) _ first _ Hsorted eq_refl ltac:(lia) Hp2)
      as (_ & _ & Hmax2).
    apply Hmax2; [done|lia].
  - rewrite parent_in_fallback in Hp1 by lia. injection Hp1 as <-.
    apply Hfirst. by apply parent_in_elem_of in Hp2.
Qed.

Lemma parents_follow_leaf_order_witness :
  pt_idx (fixtures.pt 0 "A") ≤ pt_idx (fixtures.pt 2 "B").
Proof.
  apply (parents_follow_leaf_order (fixtures.pt 1 "b") (fixtures.pt 3 "d")
           (fixtures.pt 0 "A") (fixtures.pt 2 "B")
           (fixtures.lvl [fixtures.pt 0 "A"; fixtures.pt 2 "B"])).
  - repeat constructor; simpl; lia.
  - simpl. lia.
  - reflexivity.
  - reflexivity.
Defined.

Lemma update_all_as_update_all_with (self : Categories) (new_categories : list string) :
  update_all self new_categories
  = update_all_with update_categories_call update_str_cache_call self new_categories.
Proof.
  unfold update_all, update_all_with. destruct (decide _); [done|].
  destruct self as [x [[wb]|]]; [|done]. cbn [_chart_part _xChart chart_workbook].
  unfold update_categories_call, update_str_cache_call.
  destruct (update_categories new_categories wb); [|done].
  by destruct (cat x).
Qed.

(** X8.  [update_all] writes the cached strings last.  Whatever the
    update of the workbook and the write of the cache do, and whatever
    they leave behind when they raise: if [update_all] raises, then
    either the plot element with its cached strings is as it was before
    the call, or the exception is the one the write of the cache raised
    after the length check, the chart-part check and the update of the
    workbook had all succeeded. *)
Theorem update_all_raise_keeps_cache
    (update_categories : list string → ChartWorkbook → result unit * ChartWorkbook)
    (update_str_cache : list string → CT_AxDataSource → result unit * CT_AxDataSource)
    (self : Categories) (new_categories : list string) (e : exn) :
  (update_all_with update_categories update_str_cache self new_categories).1 = Raise e →
  _xChart (update_all_with update_categories update_str_cache self new_categories).2
  = _xChart self
  ∨ ∃ chart_part cat0,
      length new_categories = Categories_len self
      ∧ _chart_part self = Some chart_part
      ∧ (update_categories new_categories (chart_workbook chart_part)).1 = Ok ()
      ∧ cat (_xChart self) = Some cat0
      ∧ (update_str_cache new_categories cat0).1 = Raise e.
Proof.
  unfold update_all_with. destruct (decide _) as [|Hlen]; [by left|].
  destruct (_chart_part self) as [chart_part|]; [|by left].
  destruct (update_categories _ _) as [[[]|e1] workbook'] eqn:Hwb; [|by left].
  destruct (cat (_xChart self)) as [cat0|]; [|by left].
  destruct (update_str_cache _ _) as [outcome' cat'] eqn:Hcache. cbn [fst snd].
  intros ->. right. exists chart_part, cat0. rewrite Hwb, Hcache.
  split_and!; try done. by destruct (decide (length new_categories = Categories_len self)).
Qed.

Lemma update_all_raise_keeps_cache_witness :
  let self := fixtures.flat [Some (fixtures.pt 0 "x"); Some (fixtures.pt 1 "y")]
                (Some {| chart_workbook := {| xlsx_categories := None |} |}) in
  _xChart (update_all_with update_categories_call update_str_cache_call
             self ["X"; "Y"]).2 = _xChart self
  ∨ ∃ chart_part cat0,
      length ["X"; "Y"] = Categories_len self
      ∧ _chart_part self = Some chart_part
      ∧ (update_categories_call ["X"; "Y"] (chart_workbook chart_part)).1 = Ok ()
      ∧ cat (_xChart self) = Some cat0
      ∧ (update_str_cache_call ["X"; "Y"] cat0).1
        = Raise (ValueError "Cannot update categories: no embedded Excel workbook").
Proof.
  exact (update_all_raise_keeps_cache update_categories_call update_str_cache_call
           (fixtures.flat [Some (fixtures.pt 0 "x"); Some (fixtures.pt 1 "y")]
              (Some {| chart_workbook := {| xlsx_categories := None |} |}))
           ["X"; "Y"] _ eq_refl).
Defined.

End category_more.

(* ------------------------------------------------------------------ *)
(** ** Element trees, continued                                        *)
(* ------------------------------------------------------------------ *)

Module etree_more.
Import etree etree_facts.

(** Two trees of the same shape that carry the same text at every path
    are the same tree. *)
Lemma tree_ext (e e' : element) :
  shape e = shape e' → (∀ p, text_at p e = text_at p e') → e = e'.
Proof.
  revert e'. induction e as [tg at_ tx cs IH] using element_ind.
  intros [tg' at' tx' cs'] Hs Ht. cbn [shape] in Hs. injection Hs as -> -> Hcs.
  pose proof (Ht []) as H0. cbn in H0. subst tx'. f_equal.
  apply list_eq. intros i.
  pose proof (f_equal (λ l, l !! i) Hcs) as Hi. cbn beta in Hi.
  change (map shape) with (fmap (M:=list) shape) in Hi. rewrite !list_lookup_fmap in Hi.
  destruct (cs !! i) as [c|] eqn:Hc, (cs' !! i) as [c'|] eqn:Hc'; try done.
  f_equal. rewrite Forall_lookup in IH. apply (IH i c Hc).
  - by injection Hi.
  - intros p. specialize (Ht (i :: p)). unfold text_at in Ht.
    cbn [get_at children] in Ht. by rewrite Hc, Hc' in Ht.
Qed.

Lemma zip_fst_elem_of {A B} (ps : list A) (vs : list B) (q : A) :
  q ∈ (zip ps vs).*1 → q ∈ ps.
Proof.
  intros ([p v] & -> & Hin)%list_elem_of_fmap. by apply elem_of_zip_l in Hin.
Qed.

Lemma text_at_assign_zip_miss (ps : list path) (vs : list (option string))
    (q : path) (e : element) :
  q ∉ ps → text_at q (assign (zip ps vs) e) = text_at q e.
Proof. intros Hq. apply text_at_assign_notin. intros Hin. by apply Hq, (zip_fst_elem_of _ vs). Qed.

Lemma text_at_assign_zip_hit (ps : list path) (vs : list (option string))
    (j : nat) (q : path) (w : option string) (e : element) :
  NoDup ps →
  Forall (λ p, is_Some (get_at p e)) ps →
  ps !! j = Some q → vs !! j = Some w →
  text_at q (assign (zip ps vs) e) = w.
Proof.
  intros Hnd Hvalid Hq Hw.
  pose proof (f_equal (λ l, l !! j) (texts_assign_zip ps vs e Hnd Hvalid)) as Hj.
  cbn beta in Hj. rewrite list_lookup_fmap, Hq in Hj. simpl in Hj.
  rewrite overwrite_lookup_lt, Hw in Hj.
  - by injection Hj.
  - by apply lookup_lt_Some in Hw.
  - rewrite length_fmap. by apply lookup_lt_Some in Hq.
Qed.

Lemma text_at_assign_zip_beyond (ps : list path) (vs : list (option string))
    (j : nat) (q : path) (e : element) :
  NoDup ps →
  Forall (λ p, is_Some (get_at p e)) ps →
  ps !! j = Some q → length vs ≤ j →
  text_at q (assign (zip ps vs) e) = text_at q e.
Proof.
  intros Hnd Hvalid Hq Hj.
  pose proof (f_equal (λ l, l !! j) (texts_assign_zip ps vs e Hnd Hvalid)) as Heq.
  cbn beta in Heq. rewrite overwrite_lookup_ge in Heq by done.
  rewrite !list_lookup_fmap, Hq in Heq. simpl in Heq. by injection Heq.
Qed.

End etree_more.

(* ------------------------------------------------------------------ *)
(** ** Diagram points, continued                                       *)
(* ------------------------------------------------------------------ *)

Module oxml_diagram_more.
Import etree etree_facts etree_more oxml_diagram oxml_diagram_facts observations.

Lemma runs_run_paths (pt : element) :
  spec.runs pt = (λ el, text_at el pt) <$> run_paths pt.
Proof. unfold spec.runs, run_paths. by destruct (t pt). Qed.

Lemma run_paths_shape (pt pt' : element) :
  shape pt = shape pt' → run_paths pt = run_paths pt'.
Proof.
  intros Hs. unfold run_paths. rewrite (t_shape _ _ Hs).
  destruct (t pt'); [by apply text_elements_shape|done].
Qed.

Lemma run_paths_NoDup (pt : element) : NoDup (run_paths pt).
Proof. unfold run_paths. destruct (t pt); [apply text_elements_NoDup|constructor]. Qed.

Lemma run_paths_valid (pt : element) : Forall (λ p, is_Some (get_at p pt)) (run_paths pt).
Proof. unfold run_paths. destruct (t pt); [apply text_elements_valid|constructor]. Qed.

(** The values the setter assigns, run by run. *)
Lemma text_set_run_paths (value : string) (pt : element) :
  text_set value pt
  = assign (zip (run_paths pt)
                (Some value :: replicate (length (run_paths pt) - 1) (Some "")))
           pt.
Proof.
  unfold run_paths. destruct (t pt) as [t_pos|] eqn:Ht.
  - by apply text_set_assign.
  - unfold text_set. by rewrite Ht.
Qed.

Lemma unpopulated_empty (o : option string) : ¬ spec.populated o → default "" o = "".
Proof.
  destruct o as [s|]; [|done]. unfold spec.populated, truthy_text. simpl.
  destruct (decide (s = "")) as [->|Hs]; [done|].
  intros H. destruct H. by apply bool_decide_pack.
Qed.

Lemma join_populated (l : list (option string)) :
  join (default "" <$> filter (λ o, spec.populated o) l) = join (default "" <$> l).
Proof.
  induction l as [|o l IH]; [done|]. rewrite fmap_cons.
  destruct (decide (spec.populated o)) as [Ho|Ho].
  - rewrite filter_cons_True by done. rewrite fmap_cons. unfold join in *.
    cbn [foldr]. by rewrite IH.
  - rewrite filter_cons_False by done. rewrite (unpopulated_empty _ Ho), IH. done.
Qed.

(** X9.  The text of a point is the concatenation, in document order, of
    the texts of all its runs, a run without text counting as the empty
    string: leaving out the runs whose text is falsy changes nothing. *)
Theorem text_get_concatenates_runs (pt : element) :
  text_get pt = join (default "" <$> spec.runs pt).
Proof. rewrite text_get_runs. apply join_populated. Qed.

(** X10.  When the point has no run, be it for want of a text container
    or because the container holds none, the setter changes nothing and
    the value is lost: the point is the same tree as before and its text
    still reads as the empty string. *)
Theorem text_set_without_runs_drops_value (pt : element) (value : string) :
  spec.runs pt = [] →
  text_set value pt = pt ∧ text_get (text_set value pt) = "".
Proof.
  intros Hruns. rewrite runs_run_paths in Hruns. apply fmap_nil_inv in Hruns.
  assert (Hset : text_set value pt = pt).
  { rewrite text_set_run_paths, Hruns. done. }
  rewrite Hset. split; [done|].
  rewrite text_get_runs, runs_run_paths, Hruns. done.
Qed.

Lemma text_set_without_runs_drops_value_witness :
  text_set "New Text" pt_no_runs = pt_no_runs
  ∧ text_get (text_set "New Text" pt_no_runs) = "".
Proof. exact (text_set_without_runs_drops_value pt_no_runs "New Text" eq_refl). Defined.

Lemma text_at_text_set_other (value : string) (pt : element) (q : path) :
  q ∉ run_paths pt → text_at q (text_set value pt) = text_at q pt.
Proof. intros Hq. rewrite text_set_run_paths. by apply text_at_assign_zip_miss. Qed.

Lemma text_at_text_set_run (value : string) (pt : element) (j : nat) (q : path) :
  run_paths pt !! j = Some q →
  text_at q (text_set value pt) = Some (if decide (j = 0) then value else "").
Proof.
  intros Hq. rewrite text_set_run_paths.
  apply (text_at_assign_zip_hit _ _ j);
    [apply run_paths_NoDup|apply run_paths_valid|done|].
  apply lookup_lt_Some in Hq. destruct j as [|j]; [done|].
  change ((Some value :: ?l) !! S j) with (l !! j). rewrite lookup_replicate_2 by lia. done.
Qed.

(** X11.  The setter touches nothing but the texts of the runs: the
    point keeps its shape (every tag, attribute and child, in particular
    its [modelId] and [type]), and every element that is not a run keeps
    its text. *)
Theorem text_set_only_writes_runs (pt : element) (value : string) (q : path) :
  q ∉ run_paths pt →
  shape (text_set value pt) = shape pt
  ∧ modelId (text_set value pt) = modelId pt
  ∧ type (text_set value pt) = type pt
  ∧ text_at q (text_set value pt) = text_at q pt.
Proof.
  intros Hq. pose proof (shape_text_set value pt) as Hs. split_and!.
  - done.
  - unfold modelId. by rewrite <- (get_shape _ (text_set _ _)), Hs, get_shape.
  - unfold type. by rewrite <- (get_shape _ (text_set _ _)), Hs, get_shape.
  - by apply text_at_text_set_other.
Qed.

Lemma text_set_only_writes_runs_witness :
  let pt := diagram_fixtures.pt_three_runs in
  shape (text_set "X" pt) = shape pt
  ∧ modelId (text_set "X" pt) = modelId pt
  ∧ type (text_set "X" pt) = type pt
  ∧ text_at [0; 2] (text_set "X" pt) = text_at [0; 2] pt.
Proof.
  apply (text_set_only_writes_runs diagram_fixtures.pt_three_runs "X" [0; 2]).
  vm_compute. intros H. by repeat (apply elem_of_cons in H as [H|H]; [discriminate H|]);
    apply elem_of_nil in H.
Defined.

(** Of two writes that lxml takes the last one wins: the point is left
    exactly as by the second write alone. *)
Lemma text_set_last_write_wins (pt : element) (value1 value2 : string) :
  text_set value2 (text_set value1 pt) = text_set value2 pt.
Proof.
  apply tree_ext; [by rewrite !shape_text_set|]. intros q.
  pose proof (run_paths_shape _ _ (shape_text_set value1 pt)) as Hpaths.
  destruct (decide (q ∈ run_paths pt)) as [Hq|Hq].
  - apply list_elem_of_lookup in Hq as [j Hj].
    rewrite (text_at_text_set_run _ _ j) by by rewrite Hpaths.
    by rewrite (text_at_text_set_run _ _ j).
  - rewrite text_at_text_set_other by by rewrite Hpaths.
    by rewrite !text_at_text_set_other.
Qed.

End oxml_diagram_more.

(* ------------------------------------------------------------------ *)
(** ** The drawing part, continued                                     *)
(* ------------------------------------------------------------------ *)

Module parts_diagram_more.
Import etree etree_facts etree_more parts_diagram parts_diagram_facts observations.

Lemma cell_paths_update (text_list : list string) (root : element) :
  cell_paths (update_all_text_elements text_list root) = cell_paths root.
Proof.
  unfold cell_paths.
  by rewrite <- (findall_desc_shape _ (update_all_text_elements _ _)),
    shape_update_all_text_elements, findall_desc_shape.
Qed.

Lemma text_at_update_other (text_list : list string) (root : element) (q : path) :
  q ∉ cell_paths root →
  text_at q (update_all_text_elements text_list root) = text_at q root.
Proof.
  intros Hq. rewrite update_all_text_elements_assign. by apply text_at_assign_zip_miss.
Qed.

Lemma text_at_update_cell (text_list : list string) (root : element) (j : nat) (q : path) :
  cell_paths root !! j = Some q →
  text_at q (update_all_text_elements text_list root)
  = if decide (j < length text_list) then text_list !! j else text_at q root.
Proof.
  intros Hq. rewrite update_all_text_elements_assign. destruct (decide _) as [Hj|Hj].
  - destruct (lookup_lt_is_Some_2 text_list j Hj) as [s Hs]. rewrite Hs.
    apply (text_at_assign_zip_hit _ _ j);
      [apply findall_desc_NoDup|apply findall_desc_valid|done|].
    by rewrite list_lookup_fmap, Hs.
  - apply (text_at_assign_zip_beyond _ _ j);
      [apply findall_desc_NoDup|apply findall_desc_valid|done|].
    rewrite length_fmap. lia.
Qed.

(** X13.  [update_all_text_elements] touches nothing but the texts of the
    [a:t] elements: the tree keeps its shape (no element or attribute is
    added, removed or renamed, so the number of cells stays the same),
    and every element that is not an [a:t] keeps its text. *)
Theorem update_only_writes_cells (text_list : list string) (root : element) (q : path) :
  q ∉ cell_paths root →
  shape (update_all_text_elements text_list root) = shape root
  ∧ length (spec.cells (update_all_text_elements text_list root))
    = length (spec.cells root)
  ∧ text_at q (update_all_text_elements text_list root) = text_at q root.
Proof.
  intros Hq. split_and!.
  - apply shape_update_all_text_elements.
  - by rewrite cells_update_all_text_elements, overwrite_length.
  - by apply text_at_update_other.
Qed.

Lemma update_only_writes_cells_witness :
  let root := drawing_three_cells in
  shape (update_all_text_elements ["1"; "2"] root) = shape root
  ∧ length (spec.cells (update_all_text_elements ["1"; "2"] root))
    = length (spec.cells root)
  ∧ text_at [0; 1] (update_all_text_elements ["1"; "2"] root) = text_at [0; 1] root.
Proof.
  apply (update_only_writes_cells ["1"; "2"] drawing_three_cells [0; 1]).
  apply (bool_decide_unpack _). by vm_compute.
Defined.

(** X14.  With no texts to write, or in a tree without cells,
    [update_all_text_elements] leaves the tree exactly as it is. *)
Theorem update_without_texts_or_cells (text_list : list string) (root : element) :
  text_list = [] ∨ spec.cells root = [] →
  update_all_text_elements text_list root = root.
Proof.
  intros Hcase. rewrite update_all_text_elements_assign.
  destruct Hcase as [->|Hcells].
  - by rewrite fmap_nil, zip_nil_r.
  - apply fmap_nil_inv in Hcells. by rewrite Hcells.
Qed.

Lemma update_without_texts_or_cells_witness :
  update_all_text_elements [] drawing_three_cells = drawing_three_cells.
Proof. exact (update_without_texts_or_cells [] drawing_three_cells (or_introl eq_refl)). Defined.




Lemma update_absorbs (texts1 texts2 : list string) (root : element) :
  length texts1 ≤ length texts2 →
  update_all_text_elements texts2 (update_all_text_elements texts1 root)
  = update_all_text_elements texts2 root.
Proof.
  intros Hlen. apply tree_ext; [by rewrite !shape_update_all_text_elements|].
  intros q. pose proof (cell_paths_update texts1 root) as Hpaths.
  destruct (decide (q ∈ cell_paths root)) as [Hq|Hq].
  - apply list_elem_of_lookup in Hq as [j Hj].
    rewrite (text_at_update_cell _ _ j) by by rewrite Hpaths.
    rewrite (text_at_update_cell texts2 root j) by done.
    destruct (decide (j < length texts2)); [done|].
    rewrite (text_at_update_cell _ _ j) by done. rewrite decide_False; [done|lia].
  - rewrite text_at_update_other by by rewrite Hpaths.
    by rewrite !text_at_update_other.
Qed.



End parts_diagram_more.

(* ------------------------------------------------------------------ *)
(** ** SmartArt, continued                                             *)
(* ------------------------------------------------------------------ *)

Module smartart_more.
Import etree etree_facts etree_more parts_diagram parts_diagram_facts
  parts_diagram_more smartart smartart_facts observations.

(** *** Finding the part to take the relationships from *)

Lemma climb_pass (y : proxy) (chain : list proxy) :
  passes y → climb_to_part (y :: chain) = climb_to_part chain.
Proof. intros [Htruthy Hpart]. cbn [climb_to_part]. by rewrite Htruthy, Hpart. Qed.

Lemma climb_passes (pre : list proxy) (chain : list proxy) :
  Forall passes pre → climb_to_part (pre ++ chain) = climb_to_part chain.
Proof.
  induction 1 as [|x pre [Htruthy Hpart] _ IH]; [done|].
  cbn [app climb_to_part]. by rewrite Htruthy, Hpart, bool_decide_true.
Qed.

Lemma climb_stops (x : proxy) (post : list proxy) :
  ¬ passes x → climb_to_part (x :: post) = Some x.
Proof.
  intros Hx. cbn [climb_to_part]. destruct (truthy x) eqn:Htruthy; [|done].
  destruct (part x) as [p|] eqn:Hpart; [done|]. destruct Hx. by split.
Qed.

Lemma climb_split (chain : list proxy) :
  (Forall passes chain ∧ climb_to_part chain = None)
  ∨ ∃ pre x post, chain = pre ++ x :: post ∧ Forall passes pre ∧ ¬ passes x
                  ∧ climb_to_part chain = Some x.
Proof.
  induction chain as [|y chain IH].
  - left. by split.
  - destruct (truthy y) eqn:Htruthy; [destruct (part y) as [p|] eqn:Hpart|].
    + right. exists [], y, chain. split_and!; [done|constructor| |].
      * intros [_ ?]. congruence.
      * apply climb_stops. intros [_ ?]. congruence.
    + assert (Hy : passes y) by by split.
      destruct IH as [[Hall Hnone]|(pre & x & post & -> & Hpre & Hx & Hclimb)].
      * left. split; [by constructor|]. by rewrite climb_pass.
      * right. exists (y :: pre), x, post. split_and!; [done|by constructor|done|].
        by rewrite climb_pass.
    + right. exists [], y, chain. split_and!; [done|constructor| |].
      * intros [? _]. congruence.
      * apply climb_stops. intros [? _]. congruence.
Qed.

(** X17.  The part [_sync_drawing_part] takes the relationships from is
    the [part] of the nearest ancestor that has one, and it is found
    exactly when every nearer ancestor is truthy and that ancestor is
    truthy itself. *)
Theorem slide_part_is_nearest (self : SmartArt) (p : part_id) :
  slide_part_of self = Some p
  ↔ ∃ pre x post,
      sa_parent self = pre ++ x :: post
      ∧ Forall passes pre ∧ truthy x = true ∧ part x = Some p.
Proof.
  unfold slide_part_of. split.
  - destruct (climb_split (sa_parent self))
      as [[_ Hnone]|(pre & x & post & Hchain & Hpre & Hx & Hclimb)].
    + by rewrite Hnone.
    + rewrite Hclimb. simpl. destruct (truthy x) eqn:Htruthy; [|done].
      intros Hpart. by exists pre, x, post.
  - intros (pre & x & post & -> & Hpre & Htruthy & Hpart).
    rewrite climb_passes by done. rewrite climb_stops.
    + simpl. by rewrite Htruthy.
    + intros [_ ?]. congruence.
Qed.

Example slide_part_of_nested : slide_part_of sa_nested = Some 0.
Proof. reflexivity. Qed.

(** X18.  A SmartArt none of whose ancestors has a [part] (in particular
    one built with parent [None]) synchronises nothing: the call returns
    without raising and the package is as before, whatever it holds. *)
Theorem sync_of_detached_is_noop (self : SmartArt) (pkg : package) :
  Forall (λ x, part x = None) (sa_parent self) →
  _sync_drawing_part self pkg = (Ok (), pkg).
Proof.
  intros Hall. unfold _sync_drawing_part, slide_part_of.
  destruct (climb_split (sa_parent self))
    as [[_ Hnone]|(pre & x & post & Hchain & Hpre & Hx & Hclimb)].
  - by rewrite Hnone.
  - rewrite Hclimb. simpl. destruct (truthy x) eqn:Htruthy; [|done].
    rewrite Hchain, Forall_app, Forall_cons in Hall. destruct Hall as (_ & Hpart & _).
    destruct Hx. by split.
Qed.

Lemma sync_of_detached_is_noop_witness :
  _sync_drawing_part sa_detached diagram_fixtures.pkg = (Ok (), diagram_fixtures.pkg).
Proof.
  apply (sync_of_detached_is_noop sa_detached diagram_fixtures.pkg). constructor.
Defined.

(** X19.  A falsy ancestor ends the search: when the nearest ancestor
    that is falsy or has a [part] is falsy, nothing is synchronised, even
    if it or an ancestor further up has a [part]. *)
Theorem sync_below_falsy_is_noop (self : SmartArt) (pkg : package)
    (pre : list proxy) (x : proxy) (post : list proxy) :
  sa_parent self = pre ++ x :: post →
  Forall passes pre →
  truthy x = false →
  _sync_drawing_part self pkg = (Ok (), pkg).
Proof.
  intros Hchain Hpre Hfalsy. unfold _sync_drawing_part, slide_part_of.
  rewrite Hchain, climb_passes by done. rewrite climb_stops.
  - simpl. by rewrite Hfalsy.
  - intros [? _]. congruence.
Qed.

Lemma sync_below_falsy_is_noop_witness :
  _sync_drawing_part sa_below_falsy diagram_fixtures.pkg = (Ok (), diagram_fixtures.pkg).
Proof.
  apply (sync_below_falsy_is_noop sa_below_falsy diagram_fixtures.pkg
           [ {| truthy := true; part := None |} ]
           {| truthy := false; part := Some 0 |}
           [ {| truthy := true; part := Some 0 |} ]).
  - reflexivity.
  - repeat constructor.
  - reflexivity.
Defined.

(** *** What synchronising leaves alone *)

Lemma Part_eq (p q : Part) :
  part_class p = part_class q → _element p = _element q → rels p = rels q → p = q.
Proof. destruct p, q. simpl. by intros -> -> ->. Qed.

Lemma sync_one_part (texts : list string) (pkg : package) (rel : _Relationship)
    (d : part_id) :
  sync_one texts pkg rel d
  = if decide (target_part rel = d ∧ part_class (pkg d) = DiagramDrawingPart)
    then {| part_class := part_class (pkg d);
            _element := update_all_text_elements texts (_element (pkg d));
            rels := rels (pkg d) |}
    else pkg d.
Proof.
  unfold sync_one. destruct (decide (target_part rel = d)) as [Heq|Hne].
  - rewrite Heq. destruct (decide (part_class (pkg d) = DiagramDrawingPart)) as [Hd|Hd].
    + rewrite decide_True by done. by rewrite fn_lookup_insert.
    + rewrite decide_False; [done|]. by intros [_ ?].
  - rewrite (decide_False (P := _ ∧ _)) by by intros [? _].
    destruct (decide _); [by rewrite fn_lookup_insert_ne|done].
Qed.

(** The part at [d] after the loop over the relationships: a drawing
    part among the targets has had [update_all_text_elements] applied,
    any other part is as before. *)
Lemma sync_all_part (texts : list string) (rels_ : list _Relationship) (pkg : package)
    (d : part_id) :
  foldl (sync_one texts) pkg rels_ d
  = if decide (d ∈ target_part <$> rels_ ∧ part_class (pkg d) = DiagramDrawingPart)
    then {| part_class := part_class (pkg d);
            _element := update_all_text_elements texts (_element (pkg d));
            rels := rels (pkg d) |}
    else pkg d.
Proof.
  revert pkg. induction rels_ as [|rel rels_ IH]; intros pkg.
  - rewrite decide_False; [done|]. by intros [?%elem_of_nil _].
  - cbn [foldl]. rewrite IH, sync_one_class, sync_one_part, fmap_cons.
    destruct (decide (part_class (pkg d) = DiagramDrawingPart)) as [Hd|Hd].
    + destruct (decide (target_part rel = d)) as [Heq|Hne].
      * rewrite (decide_True (P := target_part rel = d ∧ _)) by done.
        rewrite (decide_True (P := d ∈ target_part rel :: _ ∧ _))
          by (split; [rewrite Heq; left|done]).
        destruct (decide _); [|done]. cbn [part_class _element rels].
        by rewrite update_absorbs.
      * rewrite (decide_False (P := target_part rel = d ∧ _)) by by intros [? _].
        apply decide_ext. rewrite elem_of_cons.
        split; [intros [? ?]; split; [by right|done]|].
        intros [[?|?] ?]; [congruence|done].
    + rewrite !decide_False; [done|by intros [_ ?]..].
Qed.

Lemma sync_all_rels (texts : list string) (rels_ : list _Relationship) (pkg : package)
    (a : part_id) :
  rels (foldl (sync_one texts) pkg rels_ a) = rels (pkg a).
Proof. rewrite sync_all_part. by destruct (decide _). Qed.

Lemma sync_all_shape (texts : list string) (rels_ : list _Relationship) (pkg : package)
    (a : part_id) :
  shape (_element (foldl (sync_one texts) pkg rels_ a)) = shape (_element (pkg a)).
Proof.
  rewrite sync_all_part. destruct (decide _); [|done].
  apply shape_update_all_text_elements.
Qed.

(** The cases of [_sync_drawing_part]: it returns the package as it is,
    or it returns the package after the loop over the drawing
    relationships of the slide part. *)
Lemma sync_drawing_part_cases (self : SmartArt) (pkg : package) :
  (_sync_drawing_part self pkg).2 = pkg
  ∨ ∃ slide texts,
      slide_part_of self = Some slide
      ∧ text_content pkg self = Ok texts
      ∧ _sync_drawing_part self pkg
        = (Ok (), foldl (sync_one texts) pkg (drawing_rels_of (pkg slide))).
Proof.
  unfold _sync_drawing_part.
  destruct (slide_part_of self) as [slide|] eqn:Hslide; [|by left].
  destruct (drawing_rels_of (pkg slide)) as [|rel rels_] eqn:Hrels; [by left|].
  destruct (text_content pkg self) as [texts|] eqn:Htexts; [|by left].
  right. exists slide, texts. by rewrite Hrels.
Qed.

Lemma sync_drawing_part_class (self : SmartArt) (pkg : package) (a : part_id) :
  part_class ((_sync_drawing_part self pkg).2 a) = part_class (pkg a).
Proof.
  destruct (sync_drawing_part_cases self pkg) as [->|(slide & texts & _ & _ & ->)];
    [done|apply sync_all_class].
Qed.

Lemma sync_drawing_part_rels (self : SmartArt) (pkg : package) (a : part_id) :
  rels ((_sync_drawing_part self pkg).2 a) = rels (pkg a).
Proof.
  destruct (sync_drawing_part_cases self pkg) as [->|(slide & texts & _ & _ & ->)];
    [done|apply sync_all_rels].
Qed.

Lemma sync_drawing_part_shape (self : SmartArt) (pkg : package) (a : part_id) :
  shape (_element ((_sync_drawing_part self pkg).2 a)) = shape (_element (pkg a)).
Proof.
  destruct (sync_drawing_part_cases self pkg) as [->|(slide & texts & _ & _ & ->)];
    [done|apply sync_all_shape].
Qed.

(** X20.  Synchronising never changes the class or the relationships of
    a part, nor the shape of its tree, and it leaves every part that is
    not a drawing part exactly as it is. *)
Theorem sync_only_writes_drawing_texts (self : SmartArt) (pkg : package) (a : part_id) :
  part_class ((_sync_drawing_part self pkg).2 a) = part_class (pkg a)
  ∧ rels ((_sync_drawing_part self pkg).2 a) = rels (pkg a)
  ∧ shape (_element ((_sync_drawing_part self pkg).2 a)) = shape (_element (pkg a))
  ∧ (part_class (pkg a) = DiagramDrawingPart ∨ (_sync_drawing_part self pkg).2 a = pkg a).
Proof.
  split_and!.
  - apply sync_drawing_part_class.
  - apply sync_drawing_part_rels.
  - apply sync_drawing_part_shape.
  - destruct (decide (part_class (pkg a) = DiagramDrawingPart)); [by left|right].
    by apply sync_drawing_part_other.
Qed.

(** X21.  A drawing part that no diagram-drawing relationship of the
    slide part targets is left exactly as it is. *)
Theorem sync_leaves_other_drawings (self : SmartArt) (pkg : package)
    (slide d : part_id) :
  slide_part_of self = Some slide →
  d ∉ target_part <$> drawing_rels_of (pkg slide) →
  (_sync_drawing_part self pkg).2 d = pkg d.
Proof.
  intros Hslide Hd.
  destruct (sync_drawing_part_cases self pkg) as [->|(slide' & texts & Hslide' & _ & ->)];
    [done|].
  rewrite Hslide in Hslide'. injection Hslide' as <-. cbn [snd].
  rewrite sync_all_part, decide_False; [done|]. by intros [? _].
Qed.

Lemma sync_leaves_other_drawings_witness :
  part_class (pkg_two_drawings 3) = DiagramDrawingPart
  ∧ (_sync_drawing_part diagram_fixtures.sa pkg_two_drawings).2 3 = pkg_two_drawings 3.
Proof.
  split; [reflexivity|].
  apply (sync_leaves_other_drawings diagram_fixtures.sa pkg_two_drawings 0 3).
  - reflexivity.
  - apply (bool_decide_unpack _). by vm_compute.
Defined.

Example sync_writes_targeted_drawing_only :
  let pkg' := (_sync_drawing_part diagram_fixtures.sa
                 (write_pt_text (node_pt diagram_fixtures.node_n2) "2" pkg_two_drawings)).2 in
  spec.cells (_element (pkg' 2)) = [Some "one"; Some "2"]
  ∧ spec.cells (_element (pkg' 3)) = [Some "one"; Some "two"; Some "three"].
Proof. split; reflexivity. Qed.

Lemma text_content_ext (pkg pkg' : package) (self : SmartArt) :
  _element (pkg' (sa_data_part self)) = _element (pkg (sa_data_part self)) →
  text_content pkg' self = text_content pkg self.
Proof. intros He. by rewrite !text_content_node_texts, (node_texts_ext pkg pkg'). Qed.

Lemma sync_all_twice (texts : list string) (rels_ : list _Relationship) (pkg : package)
    (a : part_id) :
  foldl (sync_one texts) (foldl (sync_one texts) pkg rels_) rels_ a
  = foldl (sync_one texts) pkg rels_ a.
Proof.
  rewrite (sync_all_part texts rels_ (foldl _ _ _)), sync_all_class.
  destruct (decide _) as [Ha|Ha]; [|done].
  rewrite !sync_all_part, !decide_True by done. cbn [part_class _element rels].
  by rewrite update_absorbs.
Qed.

(** X22.  Synchronising twice is synchronising once: provided the data
    part is not itself a drawing part, a second call has the same outcome
    as the first and leaves every part as the first call left it. *)
Theorem sync_twice_is_sync_once (self : SmartArt) (pkg : package) (a : part_id) :
  part_class (pkg (sa_data_part self)) ≠ DiagramDrawingPart →
  (_sync_drawing_part self (_sync_drawing_part self pkg).2).1
  = (_sync_drawing_part self pkg).1
  ∧ (_sync_drawing_part self (_sync_drawing_part self pkg).2).2 a
    = (_sync_drawing_part self pkg).2 a.
Proof.
  intros Hdata.
  destruct (slide_part_of self) as [slide|] eqn:Hslide.
  2:{ assert (H1 : ∀ pkg0, _sync_drawing_part self pkg0 = (Ok (), pkg0)).
      { intros pkg0. unfold _sync_drawing_part. by rewrite Hslide. }
      by rewrite !H1. }
  destruct (drawing_rels_of (pkg slide)) as [|rel rels_] eqn:Hrels.
  { assert (H1 : _sync_drawing_part self pkg = (Ok (), pkg)).
    { unfold _sync_drawing_part. by rewrite Hslide, Hrels. }
    rewrite H1. cbn [fst snd]. by rewrite H1. }
  destruct (text_content pkg self) as [texts|e] eqn:Htexts.
  2:{ assert (H1 : _sync_drawing_part self pkg = (Raise e, pkg)).
      { unfold _sync_drawing_part. by rewrite Hslide, Hrels, Htexts. }
      rewrite H1. cbn [fst snd]. by rewrite H1. }
  set (pkg1 := foldl (sync_one texts) pkg (rel :: rels_)).
  assert (H1 : _sync_drawing_part self pkg = (Ok (), pkg1)).
  { unfold _sync_drawing_part. by rewrite Hslide, Hrels, Htexts. }
  assert (Hrels1 : drawing_rels_of (pkg1 slide) = rel :: rels_).
  { unfold drawing_rels_of, pkg1. rewrite sync_all_rels. exact Hrels. }
  assert (Htexts1 : text_content pkg1 self = Ok texts).
  { rewrite <- Htexts. apply text_content_ext. unfold pkg1.
    by rewrite sync_all_other. }
  assert (H2 : _sync_drawing_part self pkg1
               = (Ok (), foldl (sync_one texts) pkg1 (rel :: rels_))).
  { unfold _sync_drawing_part. by rewrite Hslide, Hrels1, Htexts1. }
  rewrite H1. cbn [fst snd]. rewrite H2. cbn [fst snd]. split; [done|].
  apply sync_all_twice.
Qed.

Lemma sync_twice_is_sync_once_witness :
  let pkg1 := (_sync_drawing_part diagram_fixtures.sa diagram_fixtures.pkg).2 in
  (_sync_drawing_part diagram_fixtures.sa pkg1).1
  = (_sync_drawing_part diagram_fixtures.sa diagram_fixtures.pkg).1
  ∧ (_sync_drawing_part diagram_fixtures.sa pkg1).2 2 = pkg1 2.
Proof.
  apply (sync_twice_is_sync_once diagram_fixtures.sa diagram_fixtures.pkg 2).
  discriminate.
Defined.

(** *** Setting the text of a node, continued *)



Lemma node_text_set_class (node : SmartArtNode) (value : string) (pkg : package)
    (a : part_id) :
  part_class ((node_text_set node value pkg).2 a) = part_class (pkg a).
Proof.
  unfold node_text_set. destruct (node_data_part node);
    [destruct (first_SmartArt (node_parent node))|]; cbn [snd];
    rewrite ?sync_drawing_part_class; apply write_pt_text_class.
Qed.

Lemma node_text_set_rels (node : SmartArtNode) (value : string) (pkg : package)
    (a : part_id) :
  rels ((node_text_set node value pkg).2 a) = rels (pkg a).
Proof.
  unfold node_text_set. destruct (node_data_part node);
    [destruct (first_SmartArt (node_parent node))|]; cbn [snd];
    rewrite ?sync_drawing_part_rels; apply write_pt_text_rels.
Qed.

Lemma node_text_set_shape (node : SmartArtNode) (value : string) (pkg : package)
    (a : part_id) :
  shape (_element ((node_text_set node value pkg).2 a)) = shape (_element (pkg a)).
Proof.
  unfold node_text_set. destruct (node_data_part node);
    [destruct (first_SmartArt (node_parent node))|]; cbn [snd];
    rewrite ?sync_drawing_part_shape; apply write_pt_text_shape.
Qed.

(** X24.  Setting the text of a node never changes the class or the
    relationships of a part, nor the shape of a tree (no element or
    attribute is added, removed or renamed anywhere); and every part
    other than the part of the point and the drawing parts is left
    exactly as it is. *)
Theorem node_text_set_only_writes_texts (node : SmartArtNode) (value : string)
    (pkg : package) (a : part_id) :
  part_class ((node_text_set node value pkg).2 a) = part_class (pkg a)
  ∧ rels ((node_text_set node value pkg).2 a) = rels (pkg a)
  ∧ shape (_element ((node_text_set node value pkg).2 a)) = shape (_element (pkg a))
  ∧ (a = ref_part (node_pt node)
     ∨ part_class (pkg a) = DiagramDrawingPart
     ∨ (node_text_set node value pkg).2 a = pkg a).
Proof.
  split_and!.
  - apply node_text_set_class.
  - apply node_text_set_rels.
  - apply node_text_set_shape.
  - destruct (decide (a = ref_part (node_pt node))) as [?|Hne]; [by left|right].
    destruct (decide (part_class (pkg a) = DiagramDrawingPart)); [by left|right].
    apply node_text_set_other; [done|congruence].
Qed.

(** *** The collection under a change of texts *)

Lemma deref_shape (pkg pkg' : package) (r : element_ref) :
  shape (_element (pkg' (ref_part r))) = shape (_element (pkg (ref_part r))) →
  shape <$> deref pkg' r = shape <$> deref pkg r.
Proof. intros Hs. unfold deref. by rewrite <- !get_at_shape, Hs. Qed.

Lemma type_at_shape (el el' : element) (i : nat) :
  shape el' = shape el → type_at el' i = type_at el i.
Proof.
  intros Hs%shape_children_eq. unfold type_at.
  apply (f_equal (λ l, l !! i)) in Hs. rewrite !list_lookup_fmap in Hs.
  destruct (children el' !! i) as [c'|], (children el !! i) as [c|]; try done.
  injection Hs as Hs. simpl. unfold oxml_diagram.type.
  by rewrite <- (get_shape _ c'), Hs, get_shape.
Qed.

Lemma nodes_iter_shape (pkg pkg' : package) (self : _SmartArtNodes) :
  shape (_element (pkg' (ref_part (nodes_element self))))
  = shape (_element (pkg (ref_part (nodes_element self)))) →
  nodes_iter pkg' self = nodes_iter pkg self.
Proof.
  intros Hs%deref_shape.
  destruct (deref pkg' (nodes_element self)) as [el'|] eqn:Hel',
           (deref pkg (nodes_element self)) as [el|] eqn:Hel; try done.
  - injection Hs as Hs.
    rewrite (nodes_iter_filter _ _ _ Hel'), (nodes_iter_filter _ _ _ Hel).
    unfold oxml_diagram.iter_pts.
    rewrite <- (findall_shape _ el'), Hs, findall_shape. f_equal.
    apply list_filter_iff. intros i. by rewrite (type_at_shape el el').
  - unfold nodes_iter. by rewrite Hel', Hel.
Qed.

Lemma attribute_shape (pkg pkg' : package) (r : element_ref) (name : string) :
  shape (_element (pkg' (ref_part r))) = shape (_element (pkg (ref_part r))) →
  (deref pkg' r ≫= get name) = (deref pkg r ≫= get name).
Proof.
  intros Hs%deref_shape.
  destruct (deref pkg' r) as [el'|], (deref pkg r) as [el|]; try done.
  injection Hs as Hs. simpl. by rewrite <- (get_shape _ el'), Hs, get_shape.
Qed.

(** X25.  Setting the text of a node changes neither what any collection
    iterates over nor how many nodes it counts, and every node keeps its
    model id and its type. *)
Theorem node_text_set_keeps_collection (node : SmartArtNode) (value : string)
    (pkg : package) (sa : SmartArt) (self : _SmartArtNodes) (other : SmartArtNode) :
  nodes (node_text_set node value pkg).2 sa = nodes pkg sa
  ∧ nodes_iter (node_text_set node value pkg).2 self = nodes_iter pkg self
  ∧ nodes_len (node_text_set node value pkg).2 self = nodes_len pkg self
  ∧ model_id (node_text_set node value pkg).2 other = model_id pkg other
  ∧ node_type (node_text_set node value pkg).2 other = node_type pkg other.
Proof.
  pose proof (node_text_set_shape node value pkg) as Hs.
  assert (Hiter : nodes_iter (node_text_set node value pkg).2 self = nodes_iter pkg self)
    by apply nodes_iter_shape, Hs.
  split_and!.
  - apply nodes_ext, Hs.
  - done.
  - unfold nodes_len. by rewrite Hiter.
  - apply attribute_shape, Hs.
  - apply attribute_shape, Hs.
Qed.

Lemma tagged_from_NoDup (tg : string) (k : nat) (cs : list element) :
  NoDup (tagged_from tg k cs).
Proof.
  revert k. induction cs as [|c cs IH]; intros k; [constructor|].
  cbn [tagged_from]. apply NoDup_app. split_and!.
  - destruct (decide _); [apply NoDup_singleton|constructor].
  - intros i Hi Hin. destruct (decide _); [|by apply elem_of_nil in Hi].
    apply list_elem_of_singleton in Hi as ->.
    pose proof (tagged_from_valid tg (S k) cs) as Hvalid.
    rewrite Forall_forall in Hvalid. destruct (Hvalid _ Hin). lia.
  - apply IH.
Qed.

Lemma get_at_alter_at_sibling (f : element → element) (r : path) (i j : nat)
    (e : element) :
  i ≠ j → get_at (r ++ [j]) (alter_at f (r ++ [i]) e) = get_at (r ++ [j]) e.
Proof.
  intros Hne. revert e. induction r as [|a r IH]; intros e.
  - cbn [app alter_at get_at children]. by rewrite list_lookup_alter_ne.
  - cbn [app alter_at get_at children]. rewrite list_lookup_alter_eq.
    destruct (children e !! a) as [c|]; [apply IH|done].
Qed.

(** The point of the [k]-th node of a collection is the child of the
    point list at the [k]-th content position. *)
Lemma nodes_iter_lookup (pkg : package) (self : _SmartArtNodes) (k : nat)
    (node : SmartArtNode) :
  nodes_iter pkg self !! k = Some node →
  ∃ el i,
    deref pkg (nodes_element self) = Some el
    ∧ filter (λ i, is_content_type (type_at el i)) (oxml_diagram.iter_pts el) !! k = Some i
    ∧ node_pt node = child_ref (nodes_element self) i.
Proof.
  destruct (deref pkg (nodes_element self)) as [el|] eqn:Hel.
  - rewrite (nodes_iter_filter _ _ _ Hel), list_lookup_fmap.
    destruct (filter _ _ !! k) as [i|] eqn:Hi; [|done]. intros [= <-].
    by exists el, i.
  - unfold nodes_iter. by rewrite Hel.
Qed.

(** X26.  Setting the text of one node of a SmartArt leaves the text of
    every other node of its collection as it was. *)
Theorem node_text_set_keeps_other_texts (pkg : package) (sa : SmartArt)
    (ns : _SmartArtNodes) (k k' : nat) (node node' : SmartArtNode) (value : string) :
  part_class (pkg (sa_data_part sa)) ≠ DiagramDrawingPart →
  nodes pkg sa = Ok ns →
  nodes_iter pkg ns !! k = Some node →
  nodes_iter pkg ns !! k' = Some node' →
  k ≠ k' →
  node_text (node_text_set node value pkg).2 node' = node_text pkg node'.
Proof.
  intros Hdata Hns Hnode Hnode' Hkk'.
  destruct (first_SmartArt_of_node _ _ _ _ Hns (list_elem_of_lookup_2 _ _ _ Hnode))
    as (Href & Hfirst & Hpart).
  destruct (first_SmartArt_of_node _ _ _ _ Hns (list_elem_of_lookup_2 _ _ _ Hnode'))
    as (Href' & _ & _).
  destruct (nodes_iter_lookup _ _ _ _ Hnode) as (el & i & Hel & Hi & Hpt).
  destruct (nodes_iter_lookup _ _ _ _ Hnode') as (el' & i' & Hel' & Hi' & Hpt').
  rewrite Hel in Hel'. injection Hel' as <-.
  assert (Hii' : i ≠ i').
  { intros <-. apply Hkk'. eapply NoDup_lookup; [|exact Hi|exact Hi'].
    apply NoDup_filter, tagged_from_NoDup. }
  set (pkg1 := write_pt_text (node_pt node) value pkg).
  assert (Hstate : (node_text_set node value pkg).2 (sa_data_part sa)
                   = pkg1 (sa_data_part sa)).
  { unfold node_text_set. fold pkg1. rewrite Hpart, Hfirst.
    apply sync_drawing_part_other. unfold pkg1. by rewrite write_pt_text_class. }
  rewrite (node_text_ext pkg1) by by rewrite Href', Hstate.
  assert (Hderef : deref pkg1 (node_pt node') = deref pkg (node_pt node')).
  { unfold pkg1. rewrite Hpt, Hpt'. unfold deref, write_pt_text.
    cbn [child_ref ref_path ref_part]. rewrite fn_lookup_insert. cbn [_element].
    by apply get_at_alter_at_sibling. }
  unfold node_text. by rewrite Hderef.
Qed.

Lemma node_text_set_keeps_other_texts_witness :
  node_text (node_text_set diagram_fixtures.node_n2 "2" diagram_fixtures.pkg).2
    diagram_fixtures.node_n1
  = node_text diagram_fixtures.pkg diagram_fixtures.node_n1.
Proof.
  apply (node_text_set_keeps_other_texts diagram_fixtures.pkg diagram_fixtures.sa
           diagram_fixtures.sa_nodes 2 1 diagram_fixtures.node_n2
           diagram_fixtures.node_n1 "2").
  - discriminate.
  - reflexivity.
  - reflexivity.
  - reflexivity.
  - lia.
Defined.

End smartart_more.

(* ------------------------------------------------------------------ *)
(** ** Texts that lxml refuses                                         *)
(* ------------------------------------------------------------------ *)

Module setters_facts.
Import etree etree_facts etree_more oxml_diagram oxml_diagram_facts oxml_diagram_more.
Import parts_diagram smartart smartart_facts observations setters.

(** *** What lxml takes *)

Example xml_compatible_samples :
  xml_compatible "Hello, World" = true
  ∧ xml_compatible "" = true
  ∧ xml_compatible (String (ascii_of_nat 9) "tab") = true
  ∧ xml_compatible (String (ascii_of_nat 0) "") = false
  ∧ xml_compatible control_text = false
  ∧ xml_compatible (String (ascii_of_nat 195) (String (ascii_of_nat 169) "")) = true
  ∧ xml_compatible
      (String (ascii_of_nat 239) (String (ascii_of_nat 191) (String (ascii_of_nat 190) "")))
    = false.
Proof. repeat split. Qed.

(** *** One assignment *)

Lemma alter_at_ext (f g : element → element) (p : path) (e : element) :
  (∀ c, get_at p e = Some c → f c = g c) → alter_at f p e = alter_at g p e.
Proof.
  revert e. induction p as [|i p IH]; intros e Hfg; cbn [alter_at]; [by apply Hfg|].
  f_equal. apply list_alter_ext; [|done]. intros c Hc. apply IH. intros c' Hc'.
  apply Hfg. cbn [get_at]. by rewrite Hc.
Qed.

Lemma set_text_at_twice (p : path) (v w : option string) (e : element) :
  set_text_at p v (set_text_at p w e) = set_text_at p v e.
Proof.
  unfold set_text_at. revert e. induction p as [|i p IH]; intros e; cbn [alter_at]; [done|].
  cbn [tag attrib text children]. f_equal. rewrite list_alter_alter_eq.
  apply list_alter_ext; [|done]. intros c _. apply IH.
Qed.

Lemma assign_text_accepted (el : path) (value : string) (root : element) :
  xml_compatible value = true →
  assign_text el value root = (Ok (), set_text_at el (Some value) root).
Proof. intros Hv. unfold assign_text. by rewrite Hv, set_text_at_twice. Qed.

Lemma assign_text_refused (el : path) (value : string) (root : element) :
  xml_compatible value = false →
  assign_text el value root
  = (Raise (ValueError not_xml_compatible_msg), set_text_at el None root).
Proof. intros Hv. unfold assign_text. by rewrite Hv. Qed.

Lemma assign_text_each_empty (els : list path) (root : element) :
  assign_text_each els "" root
  = (Ok (), foldl (λ self' el, set_text_at el (Some "") self') root els).
Proof.
  revert root. induction els as [|el els IH]; intros root; [done|].
  cbn [assign_text_each foldl]. rewrite assign_text_accepted by done. apply IH.
Qed.

(** *** The setter of a point *)

(** A value lxml takes is written as [text_set] says. *)
Lemma text_setter_accepted (value : string) (pt : element) :
  xml_compatible value = true →
  text_setter value pt = (Ok (), text_set value pt).
Proof.
  intros Hv. unfold text_setter, text_set. destruct (t pt) as [t_pos|]; [|done].
  destruct (text_elements pt t_pos) as [|first rest]; [done|].
  rewrite assign_text_accepted by done. apply assign_text_each_empty.
Qed.

(** Without runs nothing is assigned, so nothing can be refused. *)
Lemma text_setter_no_runs (value : string) (pt : element) :
  run_paths pt = [] → text_setter value pt = (Ok (), pt).
Proof.
  unfold run_paths, text_setter. destruct (t pt) as [t_pos|]; [|done]. by intros ->.
Qed.

(** A value lxml refuses ends the setter at its first assignment: the
    first run has lost its text and no other run has been cleared. *)
Lemma text_setter_refused (value : string) (pt : element) (first : path)
    (rest : list path) :
  xml_compatible value = false →
  run_paths pt = first :: rest →
  text_setter value pt
  = (Raise (ValueError not_xml_compatible_msg), set_text_at first None pt).
Proof.
  intros Hv. unfold run_paths, text_setter. destruct (t pt) as [t_pos|]; [|done].
  intros ->. by rewrite assign_text_refused.
Qed.

Lemma text_setter_Ok (value : string) (pt : element) :
  (text_setter value pt).1 = Ok () → (text_setter value pt).2 = text_set value pt.
Proof.
  destruct (xml_compatible value) eqn:Hv; [by rewrite text_setter_accepted|].
  destruct (run_paths pt) as [|first rest] eqn:Hruns.
  - rewrite text_setter_no_runs by done. intros _. cbn [snd].
    rewrite text_set_run_paths, Hruns. done.
  - by rewrite (text_setter_refused _ _ _ _ Hv Hruns).
Qed.

(** Whether it returns or raises, the setter touches nothing but the
    texts of the runs. *)
Lemma text_setter_frame (value : string) (pt : element) :
  shape (text_setter value pt).2 = shape pt
  ∧ ∀ q, q ∉ run_paths pt → text_at q (text_setter value pt).2 = text_at q pt.
Proof.
  destruct (xml_compatible value) eqn:Hv.
  - rewrite text_setter_accepted by done. cbn [snd]. split; [apply shape_text_set|].
    intros q Hq. by apply text_at_text_set_other.
  - destruct (run_paths pt) as [|first rest] eqn:Hruns.
    + by rewrite text_setter_no_runs.
    + rewrite (text_setter_refused _ _ _ _ Hv Hruns). cbn [snd].
      split; [apply shape_set_text_at|]. intros q Hq. apply text_at_set_ne.
      intros ->. apply Hq. left.
Qed.

Lemma runs_after_refusal (value : string) (pt : element) :
  xml_compatible value = false →
  spec.runs pt ≠ [] →
  spec.runs (text_setter value pt).2 = None :: tail (spec.runs pt).
Proof.
  intros Hv Hruns. rewrite !runs_run_paths in *.
  rewrite (run_paths_shape _ pt) by apply text_setter_frame.
  pose proof (run_paths_NoDup pt) as Hnd. pose proof (run_paths_valid pt) as Hvalid.
  destruct (run_paths pt) as [|first rest] eqn:Hpaths; [done|].
  rewrite (text_setter_refused _ _ _ _ Hv Hpaths). cbn [snd].
  apply NoDup_cons in Hnd as [Hfirst _]. apply Forall_cons in Hvalid as [Hvalid _].
  rewrite !fmap_cons. cbn [tail]. rewrite text_at_set_eq by done. f_equal.
  apply list_fmap_ext. intros i q Hq. apply text_at_set_ne.
  intros ->. apply Hfirst. by apply list_elem_of_lookup_2 in Hq.
Qed.

Example text_setter_refuses_control_text :
  text_setter control_text diagram_fixtures.pt_three_runs
  = (Raise (ValueError not_xml_compatible_msg),
     diagram_fixtures.dgm_pt [("modelId", "{test}")]
       [diagram_fixtures.el "dgm:t"
          [diagram_fixtures.el "a:bodyPr" []; diagram_fixtures.el "a:lstStyle" [];
           diagram_fixtures.el "a:p"
             [diagram_fixtures.el "a:r" [Element (qn "a:t") [] None []];
              diagram_fixtures.a_r "big "; diagram_fixtures.a_r "World"]]])
  ∧ text_get (text_setter control_text diagram_fixtures.pt_three_runs).2 = "big World".
Proof. split; reflexivity. Qed.

(** The claim fails as stated, in two ways.  With the empty string as
    value no run is populated afterwards, so the number of populated
    runs is not always one; and with a value lxml refuses the setter
    raises after the first run has lost its text, so the text read
    afterwards is what the other runs still hold, not the value. *)
Lemma text_setter_not_always_round_trip :
  ¬ (∀ (pt : element) (value : string),
       spec.runs pt ≠ [] →
       length (filter (λ o, spec.populated o) (spec.runs (text_setter value pt).2)) = 1)
  ∧ ¬ (∀ (pt : element) (value : string),
         spec.runs pt ≠ [] →
         (text_setter value pt).1 = Ok ()
         ∧ text_get (text_setter value pt).2 = value).
Proof.
  split.
  - intros H. specialize (H diagram_fixtures.pt_one_run "").
    vm_compute in H. specialize (H ltac:(discriminate)). discriminate H.
  - intros H. specialize (H diagram_fixtures.pt_three_runs control_text).
    vm_compute in H. destruct (H ltac:(discriminate)) as [H1 _]. discriminate H1.
Qed.

(** C4, amended.  When the text container of a point holds at least one
    run and [value] is a text lxml takes, setting the text to [value]
    returns, having written [value] into the first run and the empty
    string into every other run; the first run is then the only one that
    can be populated, and it is exactly when [value] is not empty; and
    reading the text afterwards gives [value]. *)
Theorem text_setter_then_get (pt : element) (value : string) :
  spec.runs pt ≠ [] →
  xml_compatible value = true →
  (text_setter value pt).1 = Ok ()
  ∧ spec.runs (text_setter value pt).2
    = Some value :: replicate (length (spec.runs pt) - 1) (Some "")
  ∧ length (filter (λ o, spec.populated o) (spec.runs (text_setter value pt).2))
    = (if decide (value = "") then 0 else 1)
  ∧ text_get (text_setter value pt).2 = value.
Proof.
  intros Hruns Hv. rewrite text_setter_accepted by done. cbn [fst snd].
  split; [done|]. by apply text_set_then_get.
Qed.

Lemma text_setter_then_get_witness :
  (text_setter "X" diagram_fixtures.pt_three_runs).1 = Ok ()
  ∧ spec.runs (text_setter "X" diagram_fixtures.pt_three_runs).2
    = [Some "X"; Some ""; Some ""]
  ∧ length (filter (λ o, spec.populated o)
              (spec.runs (text_setter "X" diagram_fixtures.pt_three_runs).2)) = 1
  ∧ text_get (text_setter "X" diagram_fixtures.pt_three_runs).2 = "X".
Proof.
  apply (text_setter_then_get diagram_fixtures.pt_three_runs "X").
  - vm_compute. discriminate.
  - reflexivity.
Defined.

Lemma text_set_ext (value : string) (pt pt' : element) :
  shape pt' = shape pt →
  (∀ q, q ∉ run_paths pt → text_at q pt' = text_at q pt) →
  text_set value pt' = text_set value pt.
Proof.
  intros Hs Hother. pose proof (run_paths_shape _ _ Hs) as Hpaths.
  apply tree_ext; [by rewrite !shape_text_set|]. intros q.
  destruct (decide (q ∈ run_paths pt)) as [Hq|Hq].
  - apply list_elem_of_lookup in Hq as [j Hj].
    rewrite (text_at_text_set_run _ _ j) by by rewrite Hpaths.
    by rewrite (text_at_text_set_run _ _ j).
  - rewrite text_at_text_set_other by by rewrite Hpaths.
    rewrite text_at_text_set_other by done. by apply Hother.
Qed.

(** X12.  The last write wins when lxml takes its value: whatever the
    first call was given, and whether it returned or raised, the second
    call returns and leaves the point exactly as it would have left the
    point the first call started from. *)
Theorem text_setter_last_write_wins (pt : element) (value1 value2 : string) :
  xml_compatible value2 = true →
  text_setter value2 (text_setter value1 pt).2 = text_setter value2 pt.
Proof.
  intros Hv. rewrite (text_setter_accepted value2 pt) by done.
  rewrite (text_setter_accepted value2 (text_setter value1 pt).2) by done. f_equal.
  destruct (text_setter_frame value1 pt) as [Hs Hother]. by apply text_set_ext.
Qed.

Lemma text_setter_last_write_wins_witness :
  text_setter "X" (text_setter control_text diagram_fixtures.pt_three_runs).2
  = text_setter "X" diagram_fixtures.pt_three_runs
  ∧ text_setter "X" (text_setter "Y" diagram_fixtures.pt_three_runs).2
    = text_setter "X" diagram_fixtures.pt_three_runs.
Proof.
  split.
  - exact (text_setter_last_write_wins diagram_fixtures.pt_three_runs control_text "X"
             eq_refl).
  - exact (text_setter_last_write_wins diagram_fixtures.pt_three_runs "Y" "X" eq_refl).
Defined.

(** The hypothesis cannot be dropped: a refused second value leaves the
    runs the first call cleared as they are. *)
Example refused_second_write :
  spec.runs (text_setter control_text (text_setter "Y" diagram_fixtures.pt_three_runs).2).2
  = [None; Some ""; Some ""]
  ∧ spec.runs (text_setter control_text diagram_fixtures.pt_three_runs).2
    = [None; Some "big "; Some "World"].
Proof. split; reflexivity. Qed.

(** *** The setter of a node *)

Lemma write_pt_Ok (r : element_ref) (value : string) (pkg : package) :
  (write_pt r value pkg).1 = Ok () →
  (write_pt r value pkg).2 = write_pt_text r value pkg.
Proof.
  unfold write_pt, write_pt_text, deref. cbn [fst snd]. intros Hok. do 2 f_equal.
  apply alter_at_ext. intros pt Hpt. rewrite Hpt in Hok. by apply text_setter_Ok.
Qed.


(** When the write to the point returns, the setter of the node does
    what [node_text_set] says. *)
Lemma node_text_setter_Ok (node : SmartArtNode) (value : string) (pkg : package) :
  (write_pt (node_pt node) value pkg).1 = Ok () →
  node_text_setter node value pkg = node_text_set node value pkg.
Proof.
  intros Hok. pose proof (write_pt_Ok _ _ _ Hok) as Hpkg.
  unfold node_text_setter, node_text_set.
  destruct (write_pt (node_pt node) value pkg) as [outcome pkg1].
  cbn [fst snd] in *. by subst.
Qed.

(** When the write to the point raises, the setter of the node raises
    the same exception and only the tree that holds the point has
    changed: nothing is synchronised. *)
Lemma node_text_setter_Raise (node : SmartArtNode) (value : string) (pkg : package)
    (e : exn) :
  (write_pt (node_pt node) value pkg).1 = Raise e →
  node_text_setter node value pkg = (Raise e, (write_pt (node_pt node) value pkg).2)
  ∧ ∀ a, a ≠ ref_part (node_pt node) → (node_text_setter node value pkg).2 a = pkg a.
Proof.
  intros Hraise. unfold node_text_setter.
  destruct (write_pt (node_pt node) value pkg) as [outcome pkg1] eqn:Hwrite.
  cbn [fst snd] in *. subst outcome. split; [done|]. intros a Ha. cbn [snd].
  unfold write_pt in Hwrite. injection Hwrite as _ <-. by rewrite fn_lookup_insert_ne.
Qed.

Lemma write_pt_frame (r : element_ref) (value : string) (pkg : package) (a : part_id) :
  part_class ((write_pt r value pkg).2 a) = part_class (pkg a)
  ∧ rels ((write_pt r value pkg).2 a) = rels (pkg a)
  ∧ shape (_element ((write_pt r value pkg).2 a)) = shape (_element (pkg a)).
Proof.
  unfold write_pt. cbn [snd]. destruct (decide (ref_part r = a)) as [<-|Hne].
  - rewrite fn_lookup_insert. cbn [part_class rels _element]. split_and!; [done..|].
    apply shape_alter_at. intros c. apply text_setter_frame.
  - by rewrite fn_lookup_insert_ne.
Qed.

(** Whether it returns or raises, the setter of a node changes neither
    the class nor the relationships of a part, nor the shape of a
    tree. *)
Lemma node_text_setter_frame (node : SmartArtNode) (value : string) (pkg : package)
    (a : part_id) :
  part_class ((node_text_setter node value pkg).2 a) = part_class (pkg a)
  ∧ rels ((node_text_setter node value pkg).2 a) = rels (pkg a)
  ∧ shape (_element ((node_text_setter node value pkg).2 a)) = shape (_element (pkg a)).
Proof.
  destruct ((write_pt (node_pt node) value pkg).1) as [[]|e] eqn:Hwrite.
  - rewrite node_text_setter_Ok by done.
    auto using smartart_more.node_text_set_class, smartart_more.node_text_set_rels,
      smartart_more.node_text_set_shape.
  - destruct (node_text_setter_Raise _ _ _ _ Hwrite) as [-> _]. apply write_pt_frame.
Qed.

Example node_text_setter_refuses_control_text :
  let after := node_text_setter diagram_fixtures.node_n2 control_text diagram_fixtures.pkg in
  after.1 = Raise (ValueError not_xml_compatible_msg)
  ∧ node_text after.2 diagram_fixtures.node_n2 = ""
  ∧ spec.cells (_element (after.2 2)) = [Some "one"; Some "two"].
Proof. repeat split. Qed.

(** The claim fails as stated: the cells are not overwritten with the
    texts of all the nodes.  In the sample diagram the document point has
    no text; after the text of the last node is set, the first cell holds
    the text of the second node, not the empty text of the first. *)
Lemma cache_not_overwritten_with_every_node_text :
  ¬ (∀ (pkg : package) (sa : SmartArt) (ns : _SmartArtNodes) (node : SmartArtNode)
       (k : nat) (value : string) (slide : part_id) (rel : _Relationship) (j : nat),
       (write_pt (node_pt node) value pkg).1 = Ok () →
       part_class (pkg (sa_data_part sa)) = DiagramDataPart →
       nodes pkg sa = Ok ns →
       nodes_iter pkg ns !! k = Some node →
       slide_part_of sa = Some slide →
       drawing_rels_of (pkg slide) !! j = Some rel →
       part_class (pkg (target_part rel)) = DiagramDrawingPart →
       ∃ (pkg' : package) (all_texts : list string),
         node_text_setter node value pkg = (Ok (), pkg')
         ∧ spec.node_texts pkg' sa = Ok all_texts
         ∧ spec.cells (_element (pkg' (target_part rel)))
           = spec.overwrite (Some <$> all_texts)
               (spec.cells (_element (pkg (target_part rel))))).
Proof.
  intros H.
  destruct (H diagram_fixtures.pkg diagram_fixtures.sa diagram_fixtures.sa_nodes
              diagram_fixtures.node_n2 2 "2" 0
              {| reltype := RT_DIAGRAM_DRAWING; target_part := 2 |} 0
              eq_refl eq_refl eq_refl eq_refl eq_refl eq_refl eq_refl)
    as (pkg' & all_texts & Hset & Hall & Hcells).
  injection Hset as <-. vm_compute in Hall. injection Hall as <-.
  vm_compute in Hcells. discriminate Hcells.
Qed.

(** C1, amended.  When the write to the point of a node returns, and the
    node belongs to a SmartArt whose parents lead to a part, the setter
    of the node returns, and afterwards every drawing part that this
    part targets by a relationship of the diagram-drawing type has its
    cells overwritten, position by position, with the current texts of
    the nodes of the collection that are not empty, in order: cell [i]
    holds the [i]-th of them for every index present in both sequences,
    the cells beyond keep their text, and the texts beyond the number of
    cells are dropped. *)
Theorem node_text_setter_syncs_cache (pkg : package) (sa : SmartArt)
    (ns : _SmartArtNodes) (node : SmartArtNode) (k : nat) (value : string)
    (slide : part_id) (rel : _Relationship) (j : nat) :
  (write_pt (node_pt node) value pkg).1 = Ok () →
  part_class (pkg (sa_data_part sa)) = DiagramDataPart →
  nodes pkg sa = Ok ns →
  nodes_iter pkg ns !! k = Some node →
  slide_part_of sa = Some slide →
  drawing_rels_of (pkg slide) !! j = Some rel →
  part_class (pkg (target_part rel)) = DiagramDrawingPart →
  ∃ (pkg' : package) (all_texts : list string),
    node_text_setter node value pkg = (Ok (), pkg')
    ∧ spec.node_texts pkg' sa = Ok all_texts
    ∧ spec.cells (_element (pkg' (target_part rel)))
      = spec.overwrite (Some <$> filter (λ s, s ≠ "") all_texts)
          (spec.cells (_element (pkg (target_part rel)))).
Proof.
  intros Hok. rewrite node_text_setter_Ok by done. apply node_text_set_syncs_cache.
Qed.

Lemma node_text_setter_syncs_cache_witness :
  ∃ (pkg' : package) (all_texts : list string),
    node_text_setter diagram_fixtures.node_n2 "2" diagram_fixtures.pkg = (Ok (), pkg')
    ∧ spec.node_texts pkg' diagram_fixtures.sa = Ok all_texts
    ∧ spec.cells (_element (pkg' 2))
      = spec.overwrite (Some <$> filter (λ s, s ≠ "") all_texts)
          (spec.cells (_element (diagram_fixtures.pkg 2))).
Proof.
  exact (node_text_setter_syncs_cache diagram_fixtures.pkg diagram_fixtures.sa
           diagram_fixtures.sa_nodes diagram_fixtures.node_n2 2 "2" 0
           {| reltype := RT_DIAGRAM_DRAWING; target_part := 2 |} 0
           eq_refl eq_refl eq_refl eq_refl eq_refl eq_refl eq_refl).
Defined.



End setters_facts.
